(** * joist-orm: the filter-to-query compiler of [QueryBuilder.ts]

    A shallow embedding of [packages/orm/src/QueryBuilder.ts] and the
    properties of its specification.  The embedding follows the source
    function by function: [abbreviation], [getAlias], [addForeignKeyClause],
    [addPrimitiveClause], [addPrimitiveOperator], the body of the
    [keys.forEach] loop ([addClause]), [addClauses] and [buildQuery].

    JavaScript values are an inductive type [value]; the knex query builder
    is a record [Query] that accumulates the calls made on it; thrown
    exceptions are the [Throw] outcome of a small error monad; the mutable
    [aliases] object and the mutable [query] variable captured by the
    closures of [buildQuery] are threaded as a [CompileState].  A second
    setting of the compiler keeps the two in objects of a heap that outlives
    the call ([buildQueryIn]), and is shown to do what the first does. *)

From Stdlib Require Import Ascii.
From stdpp Require Import base strings gmap list pretty.

Open Scope string_scope.
Open Scope Z_scope.
Open Scope list_scope.

Set Warnings "-register-all".

(** ** JavaScript values *)

(** The values a filter can hold.  Numbers are integers ([NaN], fractions
    and infinities are outside the model).  [VEntity id own] is an entity
    instance: [id] is what its [id] accessor returns ([None] for
    [undefined], an entity that was never saved) and [own] are its own
    enumerable properties.  [VObj] lists the properties of a plain object
    in enumeration order (the order of [Object.keys]). *)
Inductive value : Type :=
| VUndefined
| VNull
| VBool (b : bool)
| VNum (n : Z)
| VStr (s : string)
| VDate (t : Z)
| VArr (items : list value)
| VObj (fields : list (string * value))
| VEntity (id : option string) (own : list (string * value)).

(** [!!v] *)
Definition truthy (v : value) : bool :=
  match v with
  | VUndefined | VNull => false
  | VBool b => b
  | VNum n => negb (n =? 0)
  | VStr s => negb (String.eqb s "")
  | VDate _ | VArr _ | VObj _ | VEntity _ _ => true
  end.

(** [v === null || v === undefined] *)
Definition nullish (v : value) : bool :=
  match v with
  | VUndefined | VNull => true
  | _ => false
  end.

(** [v === null] *)
Definition isNull (v : value) : bool :=
  match v with
  | VNull => true
  | _ => false
  end.

(** [v === undefined] *)
Definition isUndefined (v : value) : bool :=
  match v with
  | VUndefined => true
  | _ => false
  end.

(** [typeof v === "object"] (which holds of [null] too) *)
Definition typeofObject (v : value) : bool :=
  match v with
  | VNull | VDate _ | VArr _ | VObj _ | VEntity _ _ => true
  | _ => false
  end.

(** [typeof v == "string"] *)
Definition typeofString (v : value) : bool :=
  match v with
  | VStr _ => true
  | _ => false
  end.

(** [Array.isArray(v)] *)
Definition isArray (v : value) : bool :=
  match v with
  | VArr _ => true
  | _ => false
  end.

(** Modelled from the spec: [isEntity] of [EntityManager.ts], which is not
    among the sources; the spec calls such a value an entity reference.  *)
Definition isEntity (v : value) : bool :=
  match v with
  | VEntity _ _ => true
  | _ => false
  end.

(** First binding of a key in a property list. *)
Fixpoint assoc {A : Type} (k : string) (l : list (string * A)) : option A :=
  match l with
  | [] => None
  | (k', a) :: rest => if String.eqb k' k then Some a else assoc k rest
  end.

(** The array index in [0, n) that the property key [k] denotes, if any:
    an index is denoted by its decimal numeral only. *)
Definition indexOfKey (k : string) (n : nat) : option nat :=
  find (fun i => String.eqb (pretty i) k) (seq 0 n).

(** The keys ["0"], ..., ["n-1"]. *)
Definition indexKeys (n : nat) : list string :=
  map (fun i : nat => pretty i) (seq 0 n).

(** The character of [s] at position [i] as a one-character string. *)
Definition charAt (s : string) (i : nat) : string :=
  String.substring i 1 s.

(** [Object.keys(v)] for a truthy [v]: own enumerable string keys.  A
    string has its indices, a number, a boolean and a Date have none. *)
Definition objectKeys (v : value) : list string :=
  match v with
  | VObj fields => map fst fields
  | VEntity _ own => map fst own
  | VArr items => indexKeys (length items)
  | VStr s => indexKeys (String.length s)
  | _ => []
  end.

(** The property read [v[k]].  Only own properties and the [id] accessor
    of an entity are modelled; the members every object inherits from the
    built-in prototypes ([toString], [constructor], ...) are not, so they
    read as [undefined].  Every read in the source is guarded by a
    truthiness test of [v], so the cases [undefined] and [null] are never
    reached. *)
Definition getProp (v : value) (k : string) : value :=
  match v with
  | VObj fields => default VUndefined (assoc k fields)
  | VEntity id own =>
      if String.eqb k "id" then from_option VStr VUndefined id
      else default VUndefined (assoc k own)
  | VArr items =>
      match indexOfKey k (length items) with
      | Some i => default VUndefined (items !! i)
      | None => if String.eqb k "length" then VNum (Z.of_nat (length items)) else VUndefined
      end
  | VStr s =>
      match indexOfKey k (String.length s) with
      | Some i => VStr (charAt s i)
      | None => if String.eqb k "length" then VNum (Z.of_nat (String.length s)) else VUndefined
      end
  | _ => VUndefined
  end.

(** ** Exceptions *)

Inductive error : Type :=
| NotFound (key : string)         (* fail(`${key} not found`) *)
| NotImplemented                  (* throw new Error("Not implemented") *)
| OnlyNeSupported                 (* throw new Error("Only ne is supported when the value is undefined or null") *)
| InvalidOperator (op : value)    (* fail(`Invalid operator ${op}`) *)
| UnhandledPrimitiveClause        (* fail(`Unhandled primitive clause ${clause}`) *)
| TypeError (what : string).      (* raised by the JavaScript runtime *)

(** The result of running a piece of the compiler: a value, a thrown
    exception, or the recursion budget of [addClauses] used up. *)
Inductive outcome (A : Type) : Type :=
| Ok (a : A)
| Throw (e : error)
| OutOfFuel.

Arguments Ok {A} a.
Arguments Throw {A} e.
Arguments OutOfFuel {A}.

Definition bind {A B : Type} (m : outcome A) (f : A -> outcome B) : outcome B :=
  match m with
  | Ok a => f a
  | Throw e => Throw e
  | OutOfFuel => OutOfFuel
  end.

Notation "x <- m ;; k" := (bind m (fun x => k))
  (at level 100, m at next level, right associativity).

(** Modelled from the spec: [fail] of [utils.ts], which is not among the
    sources; the spec has it raise a fatal error with the given message. *)
Definition fail {A : Type} (e : error) : outcome A := Throw e.

(** [a || fail(...)] for a lookup that yields an object or [undefined]. *)
Definition orFail {A : Type} (o : option A) (e : error) : outcome A :=
  match o with
  | Some a => Ok a
  | None => fail e
  end.

(** [keys.forEach(body)]: the body runs on each key in turn, on the state
    the previous run left; an exception ends the loop. *)
Fixpoint forEach {K S : Type} (keys : list K) (body : K -> S -> outcome S)
    (st : S) : outcome S :=
  match keys with
  | [] => Ok st
  | key :: rest => st' <- body key st ;; forEach rest body st'
  end.

(** The operator [k in v] on an object (own properties, and the [id]
    accessor and the [length] of an array). *)
Definition propIn (k : string) (v : value) : bool :=
  match v with
  | VObj fields => bool_decide (is_Some (assoc k fields))
  | VEntity _ own => String.eqb k "id" || bool_decide (is_Some (assoc k own))
  | VArr items =>
      bool_decide (is_Some (indexOfKey k (length items))) || String.eqb k "length"
  | _ => false
  end.

(** The operator [k in v] on any value: on a primitive the runtime raises
    a TypeError. *)
Definition hasProp (k : string) (v : value) : outcome bool :=
  if typeofObject v && negb (nullish v) then Ok (propIn k v)
  else Throw (TypeError "Cannot use 'in' operator to search for a key in a primitive").

(** The elements of an array. *)
Definition arrayItems (v : value) : list value :=
  match v with
  | VArr items => items
  | _ => []
  end.

(** ** Entity metadata (the schema catalog) *)

(** Modelled from the spec: the serde of a column ([serde.ts] is not among
    the sources).  [mapToDb] lowers a filter value to its storage form; a
    [ForeignKeySerde] also names the entity its column points to, whose
    metadata [otherMeta()] returns. *)
Inductive Serde : Type :=
| PrimitiveSerde (mapToDb : value -> value)
| ForeignKeySerde (other : string) (mapToDb : value -> value).

Definition mapToDb (s : Serde) : value -> value :=
  match s with
  | PrimitiveSerde f => f
  | ForeignKeySerde _ f => f
  end.

Record ColumnMeta : Type := {
  fieldName : string;
  columnName : string;
  serde : Serde
}.

Record EntityMetadata : Type := {
  tableName : string;
  columns : list ColumnMeta
}.

(** [meta.columns.find((c) => c.fieldName === key)] *)
Definition findColumn (meta : EntityMetadata) (key : string) : option ColumnMeta :=
  find (fun c => String.eqb (fieldName c) key) (columns meta).

(** ** The knex query builder *)

(** The builder records the calls made on it.  The table expression
    [`${table} AS ${alias}`] is kept as the pair [TableRef] and the column
    expression [`${alias}.${column}`] as the pair [ColumnRef]. *)
Module Knex.

Record TableRef : Type := { refTable : string; refAlias : string }.

Record ColumnRef : Type := { colAlias : string; colName : string }.

Record Join : Type := {
  joinTable : TableRef;
  joinFirst : ColumnRef;
  joinSecond : ColumnRef
}.

Inductive Predicate : Type :=
| Where (c : ColumnRef) (v : value)                 (* where(c, v) *)
| WhereOp (c : ColumnRef) (fn : string) (v : value) (* where(c, fn, v) *)
| WhereMember (c : ColumnRef) (member : string) (v : value)
    (* where(c, m, v) with [m] the built-in member [Object.prototype[member]] *)
| WhereIn (c : ColumnRef) (vs : list value)         (* whereIn(c, vs) *)
| WhereNull (c : ColumnRef)                         (* whereNull(c) *)
| WhereNotNull (c : ColumnRef)                      (* whereNotNull(c) *)
| WhereNot (c : ColumnRef) (v : value).             (* whereNot(c, v) *)

(** [orderBy(c, direction)]; [direction] is [VUndefined] when the call
    passes none. *)
Record OrderTerm : Type := { orderColumn : ColumnRef; orderDirection : value }.

Record Query : Type := {
  selects : list ColumnRef;
  from : TableRef;
  joins : list Join;
  wheres : list Predicate;
  orders : list OrderTerm;
  limitOf : option Z;
  offsetOf : option Z
}.

(** [knex.select(c).from(t)] *)
Definition selectFrom (c : ColumnRef) (t : TableRef) : Query :=
  {| selects := [c]; from := t; joins := []; wheres := []; orders := [];
     limitOf := None; offsetOf := None |}.

Definition addWhere (q : Query) (p : Predicate) : Query :=
  {| selects := selects q; from := from q; joins := joins q;
     wheres := wheres q ++ [p]; orders := orders q;
     limitOf := limitOf q; offsetOf := offsetOf q |}.

Definition where_ (q : Query) (c : ColumnRef) (v : value) : Query :=
  addWhere q (Where c v).
Definition whereOp (q : Query) (c : ColumnRef) (fn : string) (v : value) : Query :=
  addWhere q (WhereOp c fn v).
Definition whereMember (q : Query) (c : ColumnRef) (member : string) (v : value) : Query :=
  addWhere q (WhereMember c member v).
Definition whereIn (q : Query) (c : ColumnRef) (vs : list value) : Query :=
  addWhere q (WhereIn c vs).
Definition whereNull (q : Query) (c : ColumnRef) : Query :=
  addWhere q (WhereNull c).
Definition whereNotNull (q : Query) (c : ColumnRef) : Query :=
  addWhere q (WhereNotNull c).
Definition whereNot (q : Query) (c : ColumnRef) (v : value) : Query :=
  addWhere q (WhereNot c v).

Definition innerJoin (q : Query) (t : TableRef) (c1 c2 : ColumnRef) : Query :=
  {| selects := selects q; from := from q;
     joins := joins q ++ [{| joinTable := t; joinFirst := c1; joinSecond := c2 |}];
     wheres := wheres q; orders := orders q;
     limitOf := limitOf q; offsetOf := offsetOf q |}.

Definition orderBy (q : Query) (c : ColumnRef) (direction : value) : Query :=
  {| selects := selects q; from := from q; joins := joins q; wheres := wheres q;
     orders := orders q ++ [{| orderColumn := c; orderDirection := direction |}];
     limitOf := limitOf q; offsetOf := offsetOf q |}.

Definition limit (q : Query) (n : Z) : Query :=
  {| selects := selects q; from := from q; joins := joins q; wheres := wheres q;
     orders := orders q; limitOf := Some n; offsetOf := offsetOf q |}.

Definition offset (q : Query) (n : Z) : Query :=
  {| selects := selects q; from := from q; joins := joins q; wheres := wheres q;
     orders := orders q; limitOf := limitOf q; offsetOf := Some n |}.

(** The aliases a query introduces: that of its base table, then those of
    its joins in the order they were added. *)
Definition tableAliases (q : Query) : list string :=
  refAlias (from q) :: map (fun j => refAlias (joinTable j)) (joins q).

(** The column a predicate constrains. *)
Definition predicateColumn (p : Predicate) : ColumnRef :=
  match p with
  | Where c _ | WhereOp c _ _ | WhereMember c _ _ | WhereIn c _ | WhereNull c
  | WhereNotNull c | WhereNot c _ => c
  end.

(** The direction an order term sorts in: knex sorts descending only when
    asked to, and ascending when the direction is left out. *)
Definition descending (t : OrderTerm) : bool :=
  match orderDirection t with
  | VStr d => String.eqb d "DESC" || String.eqb d "desc"
  | _ => false
  end.

End Knex.

Import Knex.

(** ** Operators *)

(** [const operators = ["eq", "gt", "gte", "ne", "lt", "lte", "like", "ilike", "in"]] *)
Definition operators : list string :=
  ["eq"; "gt"; "gte"; "ne"; "lt"; "lte"; "like"; "ilike"; "in"].

(** [const opToFn: Record<Operator, string>] *)
Definition opToFnTable : list (string * string) :=
  [("eq", "="); ("gt", ">"); ("gte", ">="); ("ne", "!="); ("lt", "<");
   ("lte", "<="); ("like", "LIKE"); ("ilike", "ILIKE"); ("in", "...")].

(** The property key a value used as [opToFn[op]] denotes, when its text is
    determined by the value: a string denotes itself, and an array the
    comma-joined keys of its elements.  [None] stands for a text that names
    no operator (the printed form of a Date, an entity or an object). *)
Fixpoint propertyKey (v : value) : option string :=
  match v with
  | VStr s => Some s
  | VUndefined => Some "undefined"
  | VNull => Some "null"
  | VBool true => Some "true"
  | VBool false => Some "false"
  | VNum n => Some (pretty n)
  | VArr items =>
      (fix join (l : list value) : option string :=
         match l with
         | [] => Some ""
         | x :: rest =>
             match (if nullish x then Some "" else propertyKey x), join rest with
             | Some a, Some b =>
                 Some (match rest with [] => a | _ => a +:+ "," +:+ b end)
             | _, _ => None
             end
         end) items
  | VDate _ | VObj _ | VEntity _ _ => None
  end.

(** The members the object [opToFn] inherits from [Object.prototype]: a
    property read finds them as it finds the nine entries of the table, and
    each of them is truthy (a function, and for [__proto__] the prototype
    itself). *)
Definition inheritedMembers : list string :=
  ["constructor"; "hasOwnProperty"; "isPrototypeOf"; "propertyIsEnumerable";
   "toLocaleString"; "toString"; "valueOf"; "__proto__"; "__defineGetter__";
   "__defineSetter__"; "__lookupGetter__"; "__lookupSetter__"].

(** What the property read [opToFn[op]] finds: the text of an entry of the
    table, or a member the table inherits. *)
Inductive TableEntry : Type :=
| OwnEntry (fn : string)
| InheritedEntry (member : string).

(** [opToFn[op]]: an own entry first, then the prototype; [None] is
    [undefined]. *)
Definition opToFn (op : value) : option TableEntry :=
  match propertyKey op with
  | Some k =>
      match assoc k opToFnTable with
      | Some fn => Some (OwnEntry fn)
      | None =>
          if existsb (String.eqb k) inheritedMembers then Some (InheritedEntry k)
          else None
      end
  | None => None
  end.

(** [op === "..."] *)
Definition isOp (op : value) (name : string) : bool :=
  match op with
  | VStr s => String.eqb s name
  | _ => false
  end.

(** ** Table aliases *)

(** [tableName.split("_")] *)
Fixpoint split (sep : Ascii.ascii) (s : string) : list string :=
  match s with
  | EmptyString => [EmptyString]
  | String c rest =>
      if Ascii.eqb c sep then EmptyString :: split sep rest
      else match split sep rest with
           | w :: ws => String c w :: ws
           | [] => [String c EmptyString]
           end
  end.

(** [w[0]], as [join] prints it: nothing for the [undefined] that an empty
    word yields. *)
Definition firstLetter (w : string) : string :=
  match w with
  | EmptyString => ""
  | String c _ => String c EmptyString
  end.

(** [tableName.split("_").map((w) => w[0]).join("")] *)
Definition abbreviation (tableName : string) : string :=
  String.concat "" (map firstLetter (split "_"%char tableName)).

(** [getAlias(tableName)] on the [aliases] counters: the alias returned
    and the counters it leaves. *)
Definition getAlias (tableName : string) (aliases : gmap string nat)
    : string * gmap string nat :=
  let abbrev := abbreviation tableName in
  let i := default 0%nat (aliases !! abbrev) in
  (abbrev +:+ pretty i, <[abbrev := S i]> aliases).

(** The two variables the closures of [buildQuery] share and mutate: the
    [aliases] counters and the [query] under construction. *)
Record CompileState : Type := {
  aliases : gmap string nat;
  query : Query
}.

Definition setQuery (st : CompileState) (q : Query) : CompileState :=
  {| aliases := aliases st; query := q |}.

(** ** Clauses *)

(** [`${alias}.${column.columnName}`] *)
Definition columnOf (alias : string) (column : ColumnMeta) : ColumnRef :=
  {| colAlias := alias; colName := columnName column |}.

(** [value.map((v) => column.serde.mapToDb(v))]: a value that is not an
    array has no [map] method to call. *)
Definition mapItemsToDb (column : ColumnMeta) (v : value) : outcome (list value) :=
  if isArray v then Ok (map (mapToDb (serde column)) (arrayItems v))
  else Throw (TypeError "value.map is not a function").

(** [query.where(c, fn, v)] with the [fn] that [opToFn[op]] found. *)
Definition whereWith (q : Query) (c : ColumnRef) (fn : TableEntry) (v : value) : Query :=
  match fn with
  | OwnEntry text => whereOp q c text v
  | InheritedEntry member => whereMember q c member v
  end.

(** [addPrimitiveOperator(query, alias, column, op, value)] *)
Definition addPrimitiveOperator (q : Query) (alias : string) (column : ColumnMeta)
    (op : value) (v : value) : outcome Query :=
  if nullish v then
    if isOp op "ne" then Ok (whereNotNull q (columnOf alias column))
    else if isOp op "eq" then Ok (whereNull q (columnOf alias column))
    else Throw OnlyNeSupported
  else if isOp op "in" then
    vs <- mapItemsToDb column v ;;
    Ok (whereIn q (columnOf alias column) vs)
  else
    fn <- orFail (opToFn op) (InvalidOperator op) ;;
    Ok (whereWith q (columnOf alias column) fn (mapToDb (serde column) v)).

(** [operators.find((op) => Object.keys(clause).includes(op))], as a test *)
Definition hasOperatorKey (clause : value) : bool :=
  existsb (fun op => existsb (String.eqb op) (objectKeys clause)) operators.

(** [Object.keys(clause)[0]] *)
Definition firstKey (clause : value) : value :=
  match objectKeys clause with
  | k :: _ => VStr k
  | [] => VUndefined
  end.

(** [(clause as any)[op]] for the [op] that [firstKey] returned *)
Definition getAt (clause : value) (op : value) : value :=
  match op with
  | VStr k => getProp clause k
  | _ => VUndefined
  end.

(** [addPrimitiveClause(query, alias, column, clause)] *)
Definition addPrimitiveClause (q : Query) (alias : string) (column : ColumnMeta)
    (clause : value) : outcome Query :=
  if truthy clause && typeofObject clause && hasOperatorKey clause then
    let op := firstKey clause in
    addPrimitiveOperator q alias column op (getAt clause op)
  else if truthy clause && typeofObject clause && propIn "op" clause then
    addPrimitiveOperator q alias column (getProp clause "op") (getProp clause "value")
  else if isArray clause then
    Ok (whereIn q (columnOf alias column)
          (map (mapToDb (serde column)) (arrayItems clause)))
  else if isNull clause then
    Ok (whereNull q (columnOf alias column))
  else if isUndefined clause then
    Ok q
  else if negb (isUndefined clause) then
    Ok (where_ q (columnOf alias column) (mapToDb (serde column) clause))
  else
    fail UnhandledPrimitiveClause.

(** [addForeignKeyClause(query, alias, column, clause)]: whether the clause
    needs the related table joined, and the query with its predicate. *)
Definition addForeignKeyClause (q : Query) (alias : string) (column : ColumnMeta)
    (clause : value) : outcome (bool * Query) :=
  let clauseKeys :=
    if typeofObject clause && negb (nullish clause) then objectKeys clause else [] in
  if isEntity clause || typeofString clause || isArray clause then
    if isEntity clause && isUndefined (getProp clause "id") then
      Ok (false, where_ q (columnOf alias column) (VNum (-1)))
    else if isArray clause then
      Ok (false, whereIn q (columnOf alias column)
                   (map (mapToDb (serde column)) (arrayItems clause)))
    else
      Ok (false, where_ q (columnOf alias column) (mapToDb (serde column) clause))
  else if nullish clause then
    Ok (false, whereNull q (columnOf alias column))
  else if bool_decide (clauseKeys = ["id"]) then
    let v := getProp clause "id" in
    if isArray v then
      Ok (false, whereIn q (columnOf alias column)
                   (map (mapToDb (serde column)) (arrayItems v)))
    else
      Ok (false, where_ q (columnOf alias column) (mapToDb (serde column) v))
  else if bool_decide (clauseKeys = ["ne"]) then
    let v := getProp clause "ne" in
    if nullish v then
      Ok (false, whereNotNull q (columnOf alias column))
    else if typeofString v then
      Ok (false, whereNot q (columnOf alias column) (mapToDb (serde column) v))
    else
      Throw NotImplemented
  else
    Ok (negb (isUndefined clause), q).

(** ** The compiler *)

(** [type FilterAndSettings<T>]; an omitted [orderBy] is [VUndefined]. *)
Record FilterAndSettings : Type := {
  where_of : value;
  orderBy_of : value;
  limit_of : option Z;
  offset_of : option Z
}.

(** [limit || entityLimit] and [if (offset)]: an omitted number and zero
    are both falsy. *)
Definition truthyNumber (n : option Z) : option Z :=
  match n with
  | Some k => if k =? 0 then None else Some k
  | None => None
  end.

Section Compiler.

(** Modelled from the spec: [getMetadata] and [entityLimit] of
    [EntityManager.ts], which is not among the sources: the schema
    catalog, from an entity type (its constructor, here its name) to its
    metadata, and the fixed default maximum row count. *)
Variable getMetadata : string -> EntityMetadata.
Variable entityLimit : Z.

(** The keys the loop of [addClauses] runs over:
    [[...(where ? Object.keys(where) : []), ...(orderBy ? Object.keys(orderBy) : [])]] *)
Definition clauseKeys (where_ orderBy : value) : list string :=
  (if truthy where_ then objectKeys where_ else [])
  ++ (if truthy orderBy then objectKeys orderBy else []).

(** The body of [keys.forEach((key) => { ... })] in [addClauses];
    [recurse] is the recursive call of [addClauses]. *)
Definition addClause
    (recurse : EntityMetadata -> string -> value -> value ->
               CompileState -> outcome CompileState)
    (meta : EntityMetadata) (alias : string) (where_ orderBy : value)
    (key : string) (st : CompileState) : outcome CompileState :=
  column <- orFail (findColumn meta key) (NotFound key) ;;
  let clause := if truthy where_ then getProp where_ key else where_ in
  hasClause <- (if truthy where_ then hasProp key where_ else Ok false) ;;
  let order := if truthy orderBy then getProp orderBy key else orderBy in
  let hasOrder := truthy order in
  match serde column with
  | ForeignKeySerde other _ =>
      r <- (if (hasClause : bool)
            then addForeignKeyClause (query st) alias column clause
            else Ok (false, query st)) ;;
      let whereNeedsJoin := fst r in
      let st := setQuery st (snd r) in
      if whereNeedsJoin || hasOrder then
        let otherMeta := getMetadata other in
        let (otherAlias, counters) := getAlias (tableName otherMeta) (aliases st) in
        let st :=
          {| aliases := counters;
             query :=
               innerJoin (query st)
                 {| refTable := tableName otherMeta; refAlias := otherAlias |}
                 (columnOf alias column)
                 {| colAlias := otherAlias; colName := "id" |} |} in
        recurse otherMeta otherAlias
          (if whereNeedsJoin then clause else VUndefined)
          (if hasOrder then order else VUndefined) st
      else Ok st
  | PrimitiveSerde _ =>
      q <- (if (hasClause : bool)
            then addPrimitiveClause (query st) alias column clause
            else Ok (query st)) ;;
      if truthy order
      then Ok (setQuery st (Knex.orderBy q (columnOf alias column) order))
      else Ok (setQuery st q)
  end.

(** [addClauses(meta, alias, where, orderBy)].  [fuel] bounds the depth
    of the recursion, that is, the depth of the call stack. *)
Fixpoint addClauses (fuel : nat) (meta : EntityMetadata) (alias : string)
    (where_ orderBy : value) (st : CompileState) : outcome CompileState :=
  match fuel with
  | O => OutOfFuel
  | S fuel' =>
      forEach (clauseKeys where_ orderBy)
        (addClause (addClauses fuel') meta alias where_ orderBy) st
  end.

(** [buildQuery(knex, type, filter)] *)
Definition buildQuery (fuel : nat) (type : string) (filter : FilterAndSettings)
    : outcome Query :=
  let meta := getMetadata type in
  let (alias, counters) := getAlias (tableName meta) ∅ in
  let st :=
    {| aliases := counters;
       query := selectFrom {| colAlias := alias; colName := "*" |}
                           {| refTable := tableName meta; refAlias := alias |} |} in
  st <- addClauses fuel meta alias (where_of filter) (orderBy_of filter) st ;;
  let q := Knex.orderBy (query st) {| colAlias := alias; colName := "id" |} VUndefined in
  let q := limit q (default entityLimit (truthyNumber (limit_of filter))) in
  let q := match truthyNumber (offset_of filter) with
           | Some n => offset q n
           | None => q
           end in
  Ok q.

End Compiler.

(** ** Notions used by the properties *)

(** [extends q q']: [q'] is [q] after further builder calls that add joins,
    predicates and order terms, and touch nothing else. *)
Definition extends (q q' : Query) : Prop :=
  selects q' = selects q /\ from q' = from q
  /\ limitOf q' = limitOf q /\ offsetOf q' = offsetOf q
  /\ (exists js, joins q' = joins q ++ js)
  /\ (exists ws, wheres q' = wheres q ++ ws)
  /\ (exists os, orders q' = orders q ++ os).

(** The same of the states of the compiler. *)
Definition growsQuery (st st' : CompileState) : Prop :=
  extends (query st) (query st').

(** [post m Q]: if [m] returns, what it returns satisfies [Q]. *)
Definition post {A : Type} (m : outcome A) (Q : A -> Prop) : Prop :=
  forall a, m = Ok a -> Q a.

(** [completes m]: [m] returned or threw, within its recursion budget. *)
Definition completes {A : Type} (m : outcome A) : Prop := m <> OutOfFuel.

(** [approx m m']: [m'] is [m] run with a larger recursion budget. *)
Definition approx {A : Type} (m m' : outcome A) : Prop :=
  m = OutOfFuel \/ m = m'.

(** The order term [orderBy(`${alias}.id`)] on the base table of [q]. *)
Definition baseIdTerm (q : Query) : OrderTerm :=
  {| orderColumn := {| colAlias := refAlias (from q); colName := "id" |};
     orderDirection := VUndefined |}.

(** The test [stored = v] of SQL on a stored key: it holds of two equal
    numbers or two equal strings, and never of NULL. *)
Definition sqlEquals (stored v : value) : bool :=
  match stored, v with
  | VNum a, VNum b => a =? b
  | VStr a, VStr b => String.eqb a b
  | _, _ => false
  end.

(** The key column of a stored row holds NULL or an identifier the database
    assigned, a positive number. *)
Definition storedKey (stored : value) : Prop :=
  stored = VNull \/ exists n, stored = VNum n /\ 0 < n.

(** The nesting depth of a value: how many objects or arrays enclose its
    innermost part. *)
Fixpoint depth (v : value) : nat :=
  match v with
  | VArr items => S (foldr (fun x d => Nat.max (depth x) d) 0%nat items)
  | VObj fields => S (foldr (fun kv d => Nat.max (depth (snd kv)) d) 0%nat fields)
  | VEntity _ own => S (foldr (fun kv d => Nat.max (depth (snd kv)) d) 0%nat own)
  | _ => 0%nat
  end.

(** No foreign-key field of the catalog is named by an array index. *)
Definition noIndexForeignKeys (getMetadata : string -> EntityMetadata) : Prop :=
  forall type column other f (i : nat),
    In column (columns (getMetadata type)) ->
    serde column = ForeignKeySerde other f ->
    fieldName column <> pretty i.

(** ** A sample catalog

    Authors with a publisher and a mentor (a self-reference), and tasks
    with a parent task, listed by the table [top_10]. *)
Module Sample.

(** A codec that stores a value as it is. *)
Definition keep (v : value) : value := v.

Definition primitive (field column : string) : ColumnMeta :=
  {| fieldName := field; columnName := column; serde := PrimitiveSerde keep |}.

Definition foreignKey (field column other : string) : ColumnMeta :=
  {| fieldName := field; columnName := column; serde := ForeignKeySerde other keep |}.

Definition author : EntityMetadata :=
  {| tableName := "authors";
     columns := [primitive "id" "id"; primitive "firstName" "first_name";
                 primitive "age" "age";
                 foreignKey "publisher" "publisher_id" "Publisher";
                 foreignKey "mentor" "mentor_id" "Author"] |}.

Definition publisher : EntityMetadata :=
  {| tableName := "publishers";
     columns := [primitive "id" "id"; primitive "name" "name"] |}.

Definition task : EntityMetadata :=
  {| tableName := "tasks";
     columns := [primitive "id" "id"; primitive "title" "title";
                 foreignKey "parent" "parent_id" "Task"] |}.

Definition top10 : EntityMetadata :=
  {| tableName := "top_10";
     columns := [primitive "id" "id"; foreignKey "task" "task_id" "Task"] |}.

Definition catalog (type : string) : EntityMetadata :=
  if String.eqb type "Author" then author
  else if String.eqb type "Publisher" then publisher
  else if String.eqb type "Task" then task
  else top10.

(** The catalog of the authors and publishers alone. *)
Definition library (type : string) : EntityMetadata :=
  if String.eqb type "Author" then author else publisher.

Definition defaultLimit : Z := 10000.

Definition filterOf (w o : value) (l f : option Z) : FilterAndSettings :=
  {| where_of := w; orderBy_of := o; limit_of := l; offset_of := f |}.

(** [{ age: { gt: 30 }, publisher: { name: "Acme" } }] ordered by
    [{ firstName: "DESC" }] *)
Definition olderAcmeAuthors : FilterAndSettings :=
  filterOf (VObj [("age", VObj [("gt", VNum 30)]);
                  ("publisher", VObj [("name", VStr "Acme")])])
           (VObj [("firstName", VStr "DESC")]) None None.

(** [{ parent: { parent: ... { } } }], [n] levels deep *)
Fixpoint ancestors (n : nat) : value :=
  match n with
  | O => VObj []
  | S k => VObj [("parent", ancestors k)]
  end.

(** [{ task: { parent: ... } }] on [top_10]: eleven joins of [tasks]. *)
Definition elevenTasks : FilterAndSettings :=
  filterOf (VObj [("task", ancestors 10)]) VUndefined None None.

(** A limit of zero, and nothing else. *)
Definition noRows : FilterAndSettings :=
  filterOf (VObj []) VUndefined (Some 0) None.

(** The third page of twenty authors. *)
Definition thirdPage : FilterAndSettings :=
  filterOf (VObj []) VUndefined (Some 20) (Some 40).

(** The query under construction for authors, before any clause. *)
Definition authors0 : Query :=
  selectFrom {| colAlias := "a0"; colName := "*" |}
             {| refTable := "authors"; refAlias := "a0" |}.

End Sample.

(** ** The claims that fail, as the specification states them *)

(** Pagination as stated, of one compilation that returned [q]: the limit
    of the query is the limit the caller gave, or the default when none was
    given. *)
Definition limitAsStated (entityLimit : Z) (filter : FilterAndSettings)
    (q : Query) : Prop :=
  limitOf q = Some (default entityLimit (limit_of filter)).

(** Dispatch on the first key as stated, of a primitive clause with the
    properties [fields]: when the first key is an operator, one predicate
    is added; when it is not, the error is the invalid-operator error. *)
Definition firstKeyAsStated (q : Query) (alias : string) (column : ColumnMeta)
    (fields : list (string * value)) : Prop :=
  match fields with
  | (k, _) :: _ =>
      if bool_decide (In k operators)
      then exists p, addPrimitiveClause q alias column (VObj fields) = Ok (addWhere q p)
      else addPrimitiveClause q alias column (VObj fields)
           = Throw (InvalidOperator (VStr k))
  | [] => True
  end.

(** The rows a predicate keeps, by the value [stored] in its column: [None]
    where the comparison is one the model gives no meaning to (patterns,
    and orderings of anything but numbers). *)
Definition keeps (p : Predicate) (stored : value) : option bool :=
  match p with
  | Where _ v => Some (sqlEquals stored v)
  | WhereNot _ v => Some (negb (nullish stored) && negb (sqlEquals stored v))
  | WhereIn _ vs => Some (existsb (sqlEquals stored) vs)
  | WhereNull _ => Some (nullish stored)
  | WhereNotNull _ => Some (negb (nullish stored))
  | WhereOp _ fn v =>
      if String.eqb fn "=" then Some (sqlEquals stored v)
      else if String.eqb fn "!=" then
        Some (negb (nullish stored) && negb (nullish v) && negb (sqlEquals stored v))
      else
        match stored, v with
        | VNum a, VNum b =>
            if String.eqb fn ">" then Some (b <? a)
            else if String.eqb fn ">=" then Some (b <=? a)
            else if String.eqb fn "<" then Some (a <? b)
            else if String.eqb fn "<=" then Some (a <=? b)
            else None
        | _, _ => None
        end
  | WhereMember _ _ _ => None
  end.

(** ** Aliases that cannot collide *)

(** [c] is one of the characters [0] to [9]. *)
Definition isDigit (c : Ascii.ascii) : bool :=
  (48 <=? Ascii.nat_of_ascii c)%nat && (Ascii.nat_of_ascii c <=? 57)%nat.

Fixpoint allDigits (s : string) : bool :=
  match s with
  | EmptyString => true
  | String c rest => isDigit c && allDigits rest
  end.

Fixpoint endsInDigit (s : string) : bool :=
  match s with
  | EmptyString => false
  | String c EmptyString => isDigit c
  | String _ rest => endsInDigit rest
  end.

(** No table of the catalog has an abbreviation that ends in a digit. *)
Definition digitFree (getMetadata : string -> EntityMetadata) : Prop :=
  forall type, endsInDigit (abbreviation (tableName (getMetadata type))) = false.

(** The aliases of the query are pairwise distinct, and each is an
    abbreviation that ends in no digit followed by a number below the
    counter of that abbreviation. *)
Definition aliasesFresh (st : CompileState) : Prop :=
  NoDup (tableAliases (query st))
  /\ forall alias, In alias (tableAliases (query st)) ->
       exists abbrev (i : nat),
         alias = abbrev +:+ pretty i
         /\ endsInDigit abbrev = false
         /\ (i < default 0 (aliases st !! abbrev))%nat.

(** [q'] has the tables of [q]: the same base table and the same joins. *)
Definition sameTables (q q' : Query) : Prop :=
  from q' = from q /\ joins q' = joins q.

(** ** Notions used by the further properties *)

(** The alias [buildQuery] gives the base table: the first one allocated. *)
Definition baseAlias (getMetadata : string -> EntityMetadata) (type : string) : string :=
  abbreviation (tableName (getMetadata type)) +:+ "0".

(** The state [buildQuery] hands to [addClauses]. *)
Definition baseState (getMetadata : string -> EntityMetadata) (type : string)
    : CompileState :=
  {| aliases := <[abbreviation (tableName (getMetadata type)) := 1%nat]> ∅;
     query := selectFrom {| colAlias := baseAlias getMetadata type; colName := "*" |}
                {| refTable := tableName (getMetadata type);
                   refAlias := baseAlias getMetadata type |} |}.

(** What [buildQuery] does to the query once [addClauses] has returned. *)
Definition paginate (entityLimit : Z) (filter : FilterAndSettings) (alias : string)
    (q : Query) : Query :=
  let q1 := Knex.orderBy q {| colAlias := alias; colName := "id" |} VUndefined in
  let q2 := limit q1 (default entityLimit (truthyNumber (limit_of filter))) in
  match truthyNumber (offset_of filter) with
  | Some n => offset q2 n
  | None => q2
  end.

(** The join [addClauses] adds for a foreign-key column of the table under
    [alias], given the counters at that moment. *)
Definition joinOf (getMetadata : string -> EntityMetadata) (alias : string)
    (column : ColumnMeta) (other : string) (counters : gmap string nat) : Join :=
  let otherAlias := fst (getAlias (tableName (getMetadata other)) counters) in
  {| joinTable := {| refTable := tableName (getMetadata other); refAlias := otherAlias |};
     joinFirst := columnOf alias column;
     joinSecond := {| colAlias := otherAlias; colName := "id" |} |}.

(** A string, a number, a boolean or a date. *)
Definition isScalar (v : value) : bool :=
  match v with
  | VStr _ | VNum _ | VBool _ | VDate _ => true
  | _ => false
  end.

(** [q'] is [q], or [q] with one more predicate, on [c]. *)
Definition addsOn (c : ColumnRef) (q q' : Query) : Prop :=
  q' = q \/ exists p, q' = addWhere q p /\ predicateColumn p = c.

(** The table references of a query: the base table, then the joins. *)
Definition tableRefs (q : Query) : list TableRef :=
  from q :: map joinTable (joins q).

(** Each join compares a column of a table the query has already named
    with the [id] of the table it brings in. *)
Fixpoint chained (seen : list string) (js : list Join) : Prop :=
  match js with
  | [] => True
  | j :: rest =>
      In (colAlias (joinFirst j)) seen
      /\ joinSecond j = {| colAlias := refAlias (joinTable j); colName := "id" |}
      /\ chained (seen ++ [refAlias (joinTable j)]) rest
  end.

(** Every column a query mentions is under an alias the query declares,
    and its joins are chained from the base table. *)
Definition wellScoped (q : Query) : Prop :=
  Forall (fun c => In (colAlias c) (tableAliases q)) (selects q)
  /\ Forall (fun p => In (colAlias (predicateColumn p)) (tableAliases q)) (wheres q)
  /\ Forall (fun t => In (colAlias (orderColumn t)) (tableAliases q)) (orders q)
  /\ chained [refAlias (from q)] (joins q).

(** The abbreviation of the table of a reference. *)
Definition refAbbreviation (t : TableRef) : string := abbreviation (refTable t).

(** The aliases of [refs] are numbered as [getAlias] numbers them: each is
    the abbreviation of its table followed by the number of the tables
    before it, in [seen] and then in [refs], with the same abbreviation. *)
Fixpoint numbered (seen : list string) (refs : list TableRef) : Prop :=
  match refs with
  | [] => True
  | t :: rest =>
      refAlias t
      = refAbbreviation t +:+ pretty (count_occ String.string_dec seen (refAbbreviation t))
      /\ numbered (seen ++ [refAbbreviation t]) rest
  end.

(** The tables of the query are tables of the catalog, their aliases are
    numbered, and the counter of each abbreviation is the number of tables
    of the query with that abbreviation. *)
Definition aliasesNumbered (getMetadata : string -> EntityMetadata)
    (st : CompileState) : Prop :=
  numbered [] (tableRefs (query st))
  /\ (forall abbrev,
        default 0%nat (aliases st !! abbrev)
        = count_occ String.string_dec (map refAbbreviation (tableRefs (query st))) abbrev)
  /\ Forall (fun t => exists type, refTable t = tableName (getMetadata type))
        (tableRefs (query st)).

(** [n] allocations in a row for one table: the aliases, and the counters
    left. *)
Fixpoint getAliases (n : nat) (tableName : string) (counters : gmap string nat)
    : list string * gmap string nat :=
  match n with
  | O => ([], counters)
  | S k =>
      let (alias, counters1) := getAlias tableName counters in
      let (rest, counters2) := getAliases k tableName counters1 in
      (alias :: rest, counters2)
  end.

(** No character of [s] is an underscore. *)
Fixpoint noUnderscore (s : string) : bool :=
  match s with
  | EmptyString => true
  | String c rest => negb (Ascii.eqb c "_"%char) && noUnderscore rest
  end.

(** [v && v[key]] *)
Definition entryOf (v : value) (key : string) : value :=
  if truthy v then getProp v key else v.

(** [st'] satisfies [J] and declares every alias [st] declares. *)
Definition kept (J : CompileState -> Prop) (st st' : CompileState) : Prop :=
  J st' /\ forall a, In a (tableAliases (query st)) -> In a (tableAliases (query st')).

(** ** A catalog with a field named by an index

    Nodes of a linked list whose link is the field [0]. *)
Module Chain.

Definition node : EntityMetadata :=
  {| tableName := "nodes";
     columns := [Sample.primitive "id" "id"; Sample.foreignKey "0" "next_id" "Node"] |}.

Definition catalog (type : string) : EntityMetadata := node.

End Chain.

(** [{ mentor: { mentor: { age: 30 } } }]: two joins of the authors. *)
Definition mentorOfMentor : FilterAndSettings :=
  Sample.filterOf (VObj [("mentor", VObj [("mentor", VObj [("age", VNum 30)])])])
    VUndefined None None.

(** ** Notions used by the properties of foreign-key clauses *)

(** What the step of the loop on a foreign-key field does once the clause
    of the field has added the predicate [p] and asked for no join: the
    related table is joined, and its scope entered, for the sake of the
    order-by alone, which then gets no where-clause to compile. *)
Definition stepWithout (getMetadata : string -> EntityMetadata)
    (recurse : EntityMetadata -> string -> value -> value ->
               CompileState -> outcome CompileState)
    (alias : string) (column : ColumnMeta) (other : string) (orderBy : value)
    (key : string) (st : CompileState) (p : Predicate) : outcome CompileState :=
  if truthy (entryOf orderBy key) then
    let j := joinOf getMetadata alias column other (aliases st) in
    recurse (getMetadata other) (refAlias (joinTable j)) VUndefined (entryOf orderBy key)
      {| aliases := snd (getAlias (tableName (getMetadata other)) (aliases st));
         query := innerJoin (addWhere (query st) p)
                    (joinTable j) (joinFirst j) (joinSecond j) |}
  else Ok {| aliases := aliases st; query := addWhere (query st) p |}.

(** [addsKeyPredicate getMetadata column other clause P]: on the foreign-key
    [column], which points to the entity [other], the [clause] adds the one
    predicate [P c], where [c] is the key column under the current alias,
    and produces no join:
    - the clause logic returns the query with that predicate, and [false]
      for "the where-clause needs the join";
    - the step of the loop on a field with that clause adds that predicate,
      whatever else the where-clause holds, and joins only if the order-by
      names the field too;
    - a filter that names that field alone compiles to a query with that
      predicate, under the base alias, and without a join. *)
Definition addsKeyPredicate (getMetadata : string -> EntityMetadata)
    (column : ColumnMeta) (other : string) (clause : value)
    (P : ColumnRef -> Predicate) : Prop :=
  (forall q alias,
     addForeignKeyClause q alias column clause
     = Ok (false, addWhere q (P (columnOf alias column))))
  /\ (forall recurse meta alias fields o key st,
        findColumn meta key = Some column ->
        assoc key fields = Some clause ->
        addClause getMetadata recurse meta alias (VObj fields) o key st
        = stepWithout getMetadata recurse alias column other o key st
            (P (columnOf alias column)))
  /\ (forall entityLimit fuel type key l off,
        findColumn (getMetadata type) key = Some column ->
        exists q,
          buildQuery getMetadata entityLimit (S fuel) type
            {| where_of := VObj [(key, clause)]; orderBy_of := VUndefined;
               limit_of := l; offset_of := off |} = Ok q
          /\ joins q = []
          /\ wheres q = [P (columnOf (baseAlias getMetadata type) column)]).

(** [refusedWith getMetadata column clause e]: on the foreign-key [column]
    the [clause] raises [e] -- in the clause logic, in the step of the loop
    on a field with that clause, and in the compilation of a filter that
    names that field alone. *)
Definition refusedWith (getMetadata : string -> EntityMetadata)
    (column : ColumnMeta) (clause : value) (e : error) : Prop :=
  (forall q alias, addForeignKeyClause q alias column clause = Throw e)
  /\ (forall recurse meta alias fields o key st,
        findColumn meta key = Some column ->
        assoc key fields = Some clause ->
        addClause getMetadata recurse meta alias (VObj fields) o key st = Throw e)
  /\ (forall entityLimit fuel type key l off,
        findColumn (getMetadata type) key = Some column ->
        buildQuery getMetadata entityLimit (S fuel) type
          {| where_of := VObj [(key, clause)]; orderBy_of := VUndefined;
             limit_of := l; offset_of := off |} = Throw e).

(** ** Scopes

    A scope is what one call of [addClauses] works on: the metadata of an
    entity, a where-clause and an order-by. *)

(** [entersScope getMetadata meta w o via meta' w' o']: in the scope
    [(meta, w, o)] the step of the loop on the key [via] is the recursive
    call of [addClauses] on the scope [(meta', w', o')], whatever the state
    and the alias. *)
Definition entersScope (getMetadata : string -> EntityMetadata)
    (meta : EntityMetadata) (w o : value) (via : string)
    (meta' : EntityMetadata) (w' o' : value) : Prop :=
  forall recurse alias st,
    exists alias' st',
      addClause getMetadata recurse meta alias w o via st
      = recurse meta' alias' w' o' st'.

(** [unknownAt getMetadata meta w o key]: the loop of [addClauses] has the
    [key] among its keys, and the entity has no column of that name, in the
    scope [(meta, w, o)] or in a scope entered from it, at any depth. *)
Inductive unknownAt (getMetadata : string -> EntityMetadata)
    : EntityMetadata -> value -> value -> string -> Prop :=
| unknown_here meta w o key :
    In key (clauseKeys w o) ->
    findColumn meta key = None ->
    unknownAt getMetadata meta w o key
| unknown_nested meta w o via meta' w' o' key :
    In via (clauseKeys w o) ->
    entersScope getMetadata meta w o via meta' w' o' ->
    unknownAt getMetadata meta' w' o' key ->
    unknownAt getMetadata meta w o key.

(** ** The objects a compilation creates

    The two variables that the closures of [buildQuery] share are kept in
    objects of the JavaScript heap: [const aliases = {}] creates the object
    of the alias counters, and [knex.select(...)] creates the builder, which
    every later call on it mutates and returns.  The heap outlives the call:
    what a compilation finds in it, the objects of earlier compilations
    among them, is an input of the compilation.  Here the compiler is set in
    such a heap.  (The module-level constants [operators] and [opToFn] are
    never assigned to, and stay the constants above.) *)

(** The heap: the alias-counter objects and the builders, each by address. *)
Record Heap : Type := {
  aliasObjects : list (gmap string nat);
  builders : list Query
}.

(** [const aliases: Record<string, number> = {}]: the address of a new
    object, and the heap with it. *)
Definition newAliases (h : Heap) : nat * Heap :=
  (length (aliasObjects h),
   {| aliasObjects := aliasObjects h ++ [∅]; builders := builders h |}).

(** [knex.select(c).from(t)]: the address of a new builder, and the heap
    with it. *)
Definition newBuilder (c : ColumnRef) (t : TableRef) (h : Heap) : nat * Heap :=
  (length (builders h),
   {| aliasObjects := aliasObjects h; builders := builders h ++ [selectFrom c t] |}).

(** [getAlias(tableName)], reading and writing the [aliases] object at the
    address [a]. *)
Definition getAliasIn (a : nat) (tableName : string) (h : Heap) : string * Heap :=
  let (alias, counters) := getAlias tableName (default ∅ (aliasObjects h !! a)) in
  (alias, {| aliasObjects := <[a := counters]> (aliasObjects h); builders := builders h |}).

(** Calls on the builder at the address [b]: [call] makes them on the
    builder it is given, and answers with the builder they leave, which
    is the same object. *)
Definition onBuilder {A : Type} (b : nat) (call : Query -> outcome (A * Query))
    (h : Heap) : outcome (A * Heap) :=
  match builders h !! b with
  | Some q =>
      r <- call q ;;
      Ok (fst r, {| aliasObjects := aliasObjects h;
                    builders := <[b := snd r]> (builders h) |})
  | None => Throw (TypeError "not a query builder")
  end.

(** [query = call(query)] for the variable [query] that holds the address
    [b]. *)
Definition assignQuery (b : nat) (call : Query -> outcome Query) (h : Heap)
    : outcome Heap :=
  r <- onBuilder b (fun q => q' <- call q ;; Ok (tt, q')) h ;;
  Ok (snd r).

Section HeapCompiler.

Variable getMetadata : string -> EntityMetadata.
Variable entityLimit : Z.

(** The body of [keys.forEach((key) => { ... })], with [aliases] at the
    address [a] and [query] at the address [b]. *)
Definition addClauseIn (a b : nat)
    (recurse : EntityMetadata -> string -> value -> value -> Heap -> outcome Heap)
    (meta : EntityMetadata) (alias : string) (where_ orderBy : value)
    (key : string) (h : Heap) : outcome Heap :=
  column <- orFail (findColumn meta key) (NotFound key) ;;
  let clause := if truthy where_ then getProp where_ key else where_ in
  hasClause <- (if truthy where_ then hasProp key where_ else Ok false) ;;
  let order := if truthy orderBy then getProp orderBy key else orderBy in
  let hasOrder := truthy order in
  match serde column with
  | ForeignKeySerde other _ =>
      r <- onBuilder b
             (fun q => if (hasClause : bool)
                       then addForeignKeyClause q alias column clause
                       else Ok (false, q)) h ;;
      let whereNeedsJoin := fst r in
      let h := snd r in
      if whereNeedsJoin || hasOrder then
        let otherMeta := getMetadata other in
        let (otherAlias, h) := getAliasIn a (tableName otherMeta) h in
        h <- assignQuery b
               (fun q =>
                  Ok (innerJoin q
                        {| refTable := tableName otherMeta; refAlias := otherAlias |}
                        (columnOf alias column)
                        {| colAlias := otherAlias; colName := "id" |})) h ;;
        recurse otherMeta otherAlias
          (if whereNeedsJoin then clause else VUndefined)
          (if hasOrder then order else VUndefined) h
      else Ok h
  | PrimitiveSerde _ =>
      h <- assignQuery b
             (fun q => if (hasClause : bool)
                       then addPrimitiveClause q alias column clause
                       else Ok q) h ;;
      if truthy order
      then assignQuery b (fun q => Ok (Knex.orderBy q (columnOf alias column) order)) h
      else Ok h
  end.

(** [addClauses(meta, alias, where, orderBy)] in the heap. *)
Fixpoint addClausesIn (a b : nat) (fuel : nat) (meta : EntityMetadata) (alias : string)
    (where_ orderBy : value) (h : Heap) : outcome Heap :=
  match fuel with
  | O => OutOfFuel
  | S fuel' =>
      forEach (clauseKeys where_ orderBy)
        (addClauseIn a b (addClausesIn a b fuel') meta alias where_ orderBy) h
  end.

(** [buildQuery(knex, type, filter)] in the heap: the address of the
    builder it returns, and the heap it leaves. *)
Definition buildQueryIn (fuel : nat) (type : string) (filter : FilterAndSettings)
    (h : Heap) : outcome (nat * Heap) :=
  let meta := getMetadata type in
  let (a, h) := newAliases h in
  let (alias, h) := getAliasIn a (tableName meta) h in
  let (b, h) :=
    newBuilder {| colAlias := alias; colName := "*" |}
               {| refTable := tableName meta; refAlias := alias |} h in
  h <- addClausesIn a b fuel meta alias (where_of filter) (orderBy_of filter) h ;;
  h <- assignQuery b
         (fun q => Ok (Knex.orderBy q {| colAlias := alias; colName := "id" |} VUndefined)) h ;;
  h <- assignQuery b
         (fun q => Ok (limit q (default entityLimit (truthyNumber (limit_of filter))))) h ;;
  h <- match truthyNumber (offset_of filter) with
       | Some n => assignQuery b (fun q => Ok (offset q n)) h
       | None => Ok h
       end ;;
  Ok (b, h).

End HeapCompiler.

(** The heap [h] holds the state [st] of a compilation whose [aliases] is
    at [a] and whose [query] is at [b]. *)
Definition holds (a b : nat) (h : Heap) (st : CompileState) : Prop :=
  aliasObjects h !! a = Some (aliases st) /\ builders h !! b = Some (query st).

(** [h'] has the objects of [h], at the same addresses, and those at [a]
    and [b] apart they are as they were. *)
Definition sameBut (a b : nat) (h h' : Heap) : Prop :=
  length (aliasObjects h') = length (aliasObjects h)
  /\ length (builders h') = length (builders h)
  /\ (forall i, i <> a -> aliasObjects h' !! i = aliasObjects h !! i)
  /\ (forall i, i <> b -> builders h' !! i = builders h !! i).

(** The run [m'] in the heap [h] does what the run [m] on the state does:
    it returns a heap that holds the state [m] returns, and differs from
    [h] at [a] and [b] only; or it raises the same exception; or it runs out
    of budget as [m] does. *)
Definition simulates (a b : nat) (h : Heap) (m : outcome CompileState)
    (m' : outcome Heap) : Prop :=
  match m with
  | Ok st' => exists h', m' = Ok h' /\ holds a b h' st' /\ sameBut a b h h'
  | Throw e => m' = Throw e
  | OutOfFuel => m' = OutOfFuel
  end.

(** The heap of a program that has compiled nothing yet. *)
Definition emptyHeap : Heap := {| aliasObjects := []; builders := [] |}.

(** A heap in which other compilations have run. *)
Definition usedHeap : Heap :=
  {| aliasObjects := [<["a" := 3%nat]> ∅; <["p" := 1%nat]> ∅];
     builders := [Sample.authors0] |}.

(** * Properties *)

(** ** The builder only ever grows a query *)

Lemma extends_refl q : extends q q.
Proof.
  unfold extends. repeat split; try reflexivity; exists []; symmetry; apply app_nil_r.
Qed.

Lemma extends_trans q1 q2 q3 : extends q1 q2 -> extends q2 q3 -> extends q1 q3.
Proof.
  intros (Hs & Hf & Hl & Ho & [js Hj] & [ws Hw] & [os Hos])
         (Hs' & Hf' & Hl' & Ho' & [js' Hj'] & [ws' Hw'] & [os' Hos']).
  unfold extends.
  rewrite Hs', Hf', Hl', Ho', Hj', Hw', Hos', Hs, Hf, Hl, Ho, Hj, Hw, Hos.
  repeat split; eexists; symmetry; apply app_assoc.
Qed.

Lemma extends_addWhere q p : extends q (addWhere q p).
Proof.
  unfold extends; simpl.
  repeat split; try reflexivity;
    first [ exists []; symmetry; apply app_nil_r | eexists; reflexivity ].
Qed.

Lemma extends_innerJoin q t c1 c2 : extends q (innerJoin q t c1 c2).
Proof.
  unfold extends; simpl.
  repeat split; try reflexivity;
    first [ exists []; symmetry; apply app_nil_r | eexists; reflexivity ].
Qed.

Lemma extends_orderBy q c d : extends q (Knex.orderBy q c d).
Proof.
  unfold extends; simpl.
  repeat split; try reflexivity;
    first [ exists []; symmetry; apply app_nil_r | eexists; reflexivity ].
Qed.

Create HintDb extends.

#[local] Hint Resolve extends_refl extends_addWhere extends_innerJoin
  extends_orderBy : extends.

(** The rule of sequencing for postconditions. *)
Lemma post_bind {A B : Type} (m : outcome A) (f : A -> outcome B)
    (Q : A -> Prop) (R : B -> Prop) :
  post m Q -> (forall a, Q a -> post (f a) R) -> post (bind m f) R.
Proof.
  intros Hm Hf b. destruct m as [a | e |]; simpl; try discriminate.
  intros Hb. exact (Hf a (Hm a eq_refl) b Hb).
Qed.

Lemma post_Ok {A : Type} (a : A) (Q : A -> Prop) : Q a -> post (Ok a) Q.
Proof. intros H b [= <-]. exact H. Qed.

Lemma post_Throw {A : Type} (e : error) (Q : A -> Prop) : post (Throw e) Q.
Proof. intros b; discriminate. Qed.

Lemma post_OutOfFuel {A : Type} (Q : A -> Prop) : post OutOfFuel Q.
Proof. intros b; discriminate. Qed.

#[local] Hint Resolve post_Ok post_Throw post_OutOfFuel : extends.

(** Splits on the entry that the operator table gave. *)
Ltac entry_cases :=
  repeat match goal with
         | t : TableEntry |- _ => destruct t
         end.

Lemma addPrimitiveOperator_extends q alias column op v :
  post (addPrimitiveOperator q alias column op v) (extends q).
Proof.
  unfold addPrimitiveOperator, mapItemsToDb, orFail, fail,
    whereNotNull, whereNull, whereIn, whereWith, whereOp, whereMember.
  repeat case_match; entry_cases; simpl; auto with extends.
Qed.

Lemma addPrimitiveClause_extends q alias column clause :
  post (addPrimitiveClause q alias column clause) (extends q).
Proof.
  unfold addPrimitiveClause, fail, whereIn, whereNull, where_.
  repeat case_match; auto using addPrimitiveOperator_extends with extends.
Qed.

Lemma addForeignKeyClause_extends q alias column clause :
  post (addForeignKeyClause q alias column clause) (fun r => extends q (snd r)).
Proof.
  unfold addForeignKeyClause, whereIn, whereNull, whereNotNull, whereNot, where_.
  repeat case_match;
    first [ apply post_Throw | apply post_Ok; simpl; auto with extends ].
Qed.

Lemma forEach_post {K S : Type} (I : S -> Prop) (keys : list K)
    (body : K -> S -> outcome S) :
  (forall key st, I st -> post (body key st) I) ->
  forall st, I st -> post (forEach keys body st) I.
Proof.
  intros Hbody. induction keys as [| key rest IH]; intros st Hst; simpl.
  - apply post_Ok, Hst.
  - eapply post_bind; [apply Hbody, Hst | exact IH].
Qed.

Section Growth.

Variable getMetadata : string -> EntityMetadata.
Variable entityLimit : Z.

Lemma addClause_extends recurse meta alias w o key st :
  (forall m a w' o' s, post (recurse m a w' o' s) (growsQuery s)) ->
  post (addClause getMetadata recurse meta alias w o key st) (growsQuery st).
Proof.
  intros Hrec. unfold addClause, growsQuery.
  eapply post_bind with (Q := fun _ => True); [intros ? _; exact I |].
  intros column _.
  eapply post_bind with (Q := fun _ => True); [intros ? _; exact I |].
  intros hasClause _.
  destruct (serde column) as [f | other f].
  - eapply post_bind with (Q := extends (query st)).
    + destruct hasClause; [apply addPrimitiveClause_extends | auto with extends].
    + intros q Hq. destruct (truthy _); apply post_Ok; simpl;
        eauto using extends_trans with extends.
  - eapply post_bind with (Q := fun r => extends (query st) (snd r)).
    + destruct hasClause; [apply addForeignKeyClause_extends |].
      apply post_Ok; simpl; auto with extends.
    + intros [needsJoin q] Hq; simpl in *.
      case_match; [| apply post_Ok; exact Hq].
      intros st' Hst'. apply Hrec in Hst'. unfold growsQuery in Hst'; simpl in Hst'.
      eauto using extends_trans with extends.
Qed.

Lemma addClauses_extends fuel : forall meta alias w o st,
  post (addClauses getMetadata fuel meta alias w o st) (growsQuery st).
Proof.
  induction fuel as [| fuel IH]; intros meta alias w o st; simpl.
  - apply post_OutOfFuel.
  - apply (forEach_post (growsQuery st)); [| apply extends_refl].
    intros key st1 H1 st2 H2.
    apply (addClause_extends _ _ _ _ _ _ _ (fun m a w' o' s => IH m a w' o' s)) in H2.
    unfold growsQuery in *. eauto using extends_trans.
Qed.

(** What [buildQuery] returns, in terms of the state [addClauses] left. *)
Lemma buildQuery_Ok fuel type filter q :
  buildQuery getMetadata entityLimit fuel type filter = Ok q ->
  let meta := getMetadata type in
  let alias := abbreviation (tableName meta) +:+ "0" in
  let q0 := selectFrom {| colAlias := alias; colName := "*" |}
                       {| refTable := tableName meta; refAlias := alias |} in
  exists st,
    addClauses getMetadata fuel meta alias (where_of filter) (orderBy_of filter)
      {| aliases := <[abbreviation (tableName meta) := 1%nat]> ∅; query := q0 |} = Ok st
    /\ extends q0 (query st)
    /\ q = (let q1 := Knex.orderBy (query st) {| colAlias := alias; colName := "id" |}
                        VUndefined in
            let q2 := limit q1 (default entityLimit (truthyNumber (limit_of filter))) in
            match truthyNumber (offset_of filter) with
            | Some n => offset q2 n
            | None => q2
            end).
Proof.
  unfold buildQuery, getAlias. rewrite lookup_empty. simpl.
  destruct (addClauses _ _ _ _ _ _ _) as [st | e |] eqn:Hst; simpl; try discriminate.
  intros [= <-]. exists st. split; [reflexivity |]. split; [| reflexivity].
  exact (addClauses_extends _ _ _ _ _ _ _ Hst).
Qed.

End Growth.

(** ** Tail ordering *)

(** C1. The last order term of every compiled query is the identifier
    column of the base table, under the alias of the base table, sorted
    ascending -- whatever order terms the order-by of the caller added
    before it. *)
Theorem tail_ordering getMetadata entityLimit fuel type filter q :
  buildQuery getMetadata entityLimit fuel type filter = Ok q ->
  refTable (from q) = tableName (getMetadata type)
  /\ (exists userTerms, orders q = userTerms ++ [baseIdTerm q])
  /\ last (orders q) = Some (baseIdTerm q)
  /\ descending (baseIdTerm q) = false.
Proof.
  intros H. apply buildQuery_Ok in H as (st & _ & Hext & ->).
  destruct Hext as (_ & Hfrom & _ & _ & _ & _ & [os Hos]).
  assert (Hshape : forall q',
    from q' = from (query st) -> orders q' = orders (query st) ++
      [{| orderColumn := {| colAlias := abbreviation (tableName (getMetadata type)) +:+ "0";
                            colName := "id" |};
          orderDirection := VUndefined |}] ->
    refTable (from q') = tableName (getMetadata type)
    /\ (exists userTerms, orders q' = userTerms ++ [baseIdTerm q'])
    /\ last (orders q') = Some (baseIdTerm q')
    /\ descending (baseIdTerm q') = false).
  { intros q' Hf Ho. unfold baseIdTerm. rewrite Hf, Hfrom, Ho. simpl.
    split; [reflexivity |]. split; [eexists; reflexivity |].
    split; [apply last_snoc | reflexivity]. }
  destruct (truthyNumber (offset_of filter)); apply Hshape; reflexivity.
Qed.

Lemma tail_ordering_witness :
  exists q,
    buildQuery Sample.catalog Sample.defaultLimit 2 "Author" Sample.olderAcmeAuthors = Ok q
    /\ last (orders q) = Some (baseIdTerm q)
    /\ length (orders q) = 2%nat.
Proof.
  eexists. split; [vm_compute; reflexivity |].
  split; [| reflexivity].
  eapply (tail_ordering Sample.catalog Sample.defaultLimit 2 "Author"
            Sample.olderAcmeAuthors).
  vm_compute; reflexivity.
Defined.

(** ** Pagination *)

(** C7, as stated, fails: a limit of zero is given, and the query gets the
    default limit. *)
Lemma limit_zero_is_replaced :
  exists q,
    buildQuery Sample.catalog Sample.defaultLimit 1 "Author" Sample.noRows = Ok q
    /\ ~ limitAsStated Sample.defaultLimit Sample.noRows q.
Proof.
  eexists. split; [vm_compute; reflexivity |].
  unfold limitAsStated; simpl. discriminate.
Qed.

(** C7, amended.  The limit of the query is the limit given when one is
    given and is not zero, and the default maximum otherwise, so a query
    always has a limit; the query has an offset exactly when one is given
    and is not zero, and then it is the offset given. *)
Theorem pagination getMetadata entityLimit fuel type filter q :
  buildQuery getMetadata entityLimit fuel type filter = Ok q ->
  (forall n, limit_of filter = Some n -> n <> 0 -> limitOf q = Some n)
  /\ (limit_of filter = None \/ limit_of filter = Some 0 ->
      limitOf q = Some entityLimit)
  /\ limitOf q <> None
  /\ (forall n, offset_of filter = Some n -> n <> 0 -> offsetOf q = Some n)
  /\ (offset_of filter = None \/ offset_of filter = Some 0 -> offsetOf q = None).
Proof.
  intros H. apply buildQuery_Ok in H as (st & _ & Hext & ->).
  destruct Hext as (_ & _ & _ & Hoff & _). simpl in Hoff.
  destruct filter as [w o l f]; simpl.
  assert (Hz : forall n : Z, n <> 0 -> (n =? 0) = false) by (intros; lia).
  repeat split.
  - intros n [= ->] Hn. simpl. rewrite (Hz n Hn). now destruct (truthyNumber f).
  - intros [-> | ->]; simpl; now destruct (truthyNumber f).
  - now destruct (truthyNumber f).
  - intros n [= ->] Hn. simpl. now rewrite (Hz n Hn).
  - intros [-> | ->]; simpl; exact Hoff.
Qed.

Lemma pagination_witness :
  exists q,
    buildQuery Sample.catalog Sample.defaultLimit 1 "Author" Sample.thirdPage = Ok q
    /\ limitOf q = Some 20 /\ offsetOf q = Some 40.
Proof.
  eexists. split; [vm_compute; reflexivity |].
  destruct (pagination Sample.catalog Sample.defaultLimit 1 "Author" Sample.thirdPage _
              ltac:(vm_compute; reflexivity)) as (Hl & _ & _ & Ho & _).
  split; [apply (Hl 20) | apply (Ho 40)]; first [reflexivity | lia].
Defined.

(** ** The operator translator *)

Lemma getProp_head k v rest : getProp (VObj ((k, v) :: rest)) k = v.
Proof. simpl. now rewrite String.eqb_refl. Qed.

(** What an operator of the table does to an operand that is not null:
    one predicate, spelled by the table. *)
Lemma addPrimitiveOperator_known q alias column k v :
  In k operators -> k <> "in" -> nullish v = false ->
  exists fn,
    assoc k opToFnTable = Some fn
    /\ addPrimitiveOperator q alias column (VStr k) v
       = Ok (whereOp q (columnOf alias column) fn (mapToDb (serde column) v)).
Proof.
  intros Hk Hin Hv. unfold addPrimitiveOperator. rewrite Hv.
  simpl in Hk.
  destruct Hk as [<- | [<- | [<- | [<- | [<- | [<- | [<- | [<- | [<- | []]]]]]]]]];
    try congruence; eexists; (split; [reflexivity | reflexivity]).
Qed.

(** A key that is no operator is not among the entries of the table. *)
Lemma opToFnTable_unknown k : ~ In k operators -> assoc k opToFnTable = None.
Proof.
  intros Hk.
  assert (Hne : forall name, In name operators -> String.eqb name k = false).
  { intros name Hname. apply String.eqb_neq. intros <-. exact (Hk Hname). }
  unfold opToFnTable. cbn [assoc].
  rewrite !Hne by (simpl; tauto). reflexivity.
Qed.

Lemma existsb_eqb_In k l : existsb (String.eqb k) l = true <-> In k l.
Proof.
  rewrite existsb_exists. split.
  - intros (x & Hx & Heq). apply String.eqb_eq in Heq. now subst.
  - intros Hk. exists k. split; [exact Hk | apply String.eqb_refl].
Qed.

(** What a key that is no operator does to an operand that is [null] or
    absent: the operand is tested first. *)
Lemma addPrimitiveOperator_unknown_null q alias column k v :
  ~ In k operators -> nullish v = true ->
  addPrimitiveOperator q alias column (VStr k) v = Throw OnlyNeSupported.
Proof.
  intros Hk Hv. unfold addPrimitiveOperator, isOp. rewrite Hv.
  assert (Hne : forall name, In name operators -> String.eqb k name = false).
  { intros name Hname. apply String.eqb_neq. intros ->. exact (Hk Hname). }
  now rewrite !Hne by (simpl; tauto).
Qed.

(** What a key that is neither an operator nor the name of an inherited
    member does to any other operand: the table has nothing to give. *)
Lemma addPrimitiveOperator_unknown q alias column k v :
  ~ In k operators -> ~ In k inheritedMembers -> nullish v = false ->
  addPrimitiveOperator q alias column (VStr k) v = Throw (InvalidOperator (VStr k)).
Proof.
  intros Hk Hmember Hv. unfold addPrimitiveOperator, isOp, opToFn. rewrite Hv.
  simpl propertyKey.
  assert (Hne : forall name, In name operators -> String.eqb k name = false).
  { intros name Hname. apply String.eqb_neq. intros ->. exact (Hk Hname). }
  rewrite !Hne by (simpl; tauto).
  rewrite opToFnTable_unknown by exact Hk.
  destruct (existsb (String.eqb k) inheritedMembers) eqn:He; [| reflexivity].
  apply existsb_eqb_In in He. contradiction.
Qed.

(** X19. The name of a member that every object inherits ([toString],
    [constructor], ...) is not refused as an operator when its operand is
    not null or absent: the lookup in the operator table finds the
    inherited member, so the invalid-operator error is not raised, and the
    member itself is passed to the builder as the operator.  The same holds
    of a clause whose first key is such a name and that has an operator
    among its other keys. *)
Theorem inherited_member_operator q alias column k v :
  In k inheritedMembers -> nullish v = false ->
  addPrimitiveOperator q alias column (VStr k) v
  = Ok (whereMember q (columnOf alias column) k (mapToDb (serde column) v))
  /\ (forall rest,
        hasOperatorKey (VObj ((k, v) :: rest)) = true ->
        addPrimitiveClause q alias column (VObj ((k, v) :: rest))
        = Ok (whereMember q (columnOf alias column) k (mapToDb (serde column) v))).
Proof.
  intros Hk Hv.
  assert (Hop : addPrimitiveOperator q alias column (VStr k) v
                = Ok (whereMember q (columnOf alias column) k
                        (mapToDb (serde column) v))).
  { unfold addPrimitiveOperator. rewrite Hv. simpl in Hk.
    repeat (destruct Hk as [<- | Hk]; [reflexivity |]). contradiction. }
  split; [exact Hop |].
  intros rest Hrest. unfold addPrimitiveClause. rewrite Hrest.
  simpl truthy. simpl typeofObject.
  cbn [andb firstKey objectKeys map fst getAt]. now rewrite getProp_head.
Qed.

Lemma inherited_member_operator_witness :
  addPrimitiveClause Sample.authors0 "a0" (Sample.primitive "age" "age")
    (VObj [("toString", VNum 30); ("gt", VNum 40)])
  = Ok (whereMember Sample.authors0 {| colAlias := "a0"; colName := "age" |}
          "toString" (VNum 30)).
Proof.
  apply (inherited_member_operator Sample.authors0 "a0" (Sample.primitive "age" "age")
           "toString" (VNum 30));
    [simpl; tauto | reflexivity | reflexivity].
Defined.

(** C4. On an operand that is [null] or absent, [eq] gives the predicate
    "is null" and [ne] the predicate "is not null"; each of [gt], [gte],
    [lt], [lte], [like], [ilike] and [in] raises the unsupported-operation
    error. *)
Theorem null_operand q alias column v :
  nullish v = true ->
  addPrimitiveOperator q alias column (VStr "eq") v
  = Ok (whereNull q (columnOf alias column))
  /\ addPrimitiveOperator q alias column (VStr "ne") v
     = Ok (whereNotNull q (columnOf alias column))
  /\ (forall op, In op ["gt"; "gte"; "lt"; "lte"; "like"; "ilike"; "in"] ->
      addPrimitiveOperator q alias column (VStr op) v = Throw OnlyNeSupported).
Proof.
  intros Hv. unfold addPrimitiveOperator. rewrite Hv.
  split; [reflexivity |]. split; [reflexivity |].
  intros op Hop. simpl in Hop.
  repeat (destruct Hop as [<- | Hop]; [reflexivity |]). contradiction.
Qed.

Lemma null_operand_witness :
  addPrimitiveOperator Sample.authors0 "a0" (Sample.primitive "age" "age")
    (VStr "gt") VNull = Throw OnlyNeSupported
  /\ wheres Sample.authors0 = [].
Proof.
  split; [| reflexivity].
  apply (null_operand Sample.authors0 "a0" (Sample.primitive "age" "age") VNull);
    [reflexivity | simpl; tauto].
Defined.

(** ** Dispatch on the first key of a primitive clause *)

(** C10, as stated, fails: the first key [gt] is an operator, its operand is
    [null], and no predicate is added: the clause is refused. *)
Lemma first_key_null_operand :
  addPrimitiveClause Sample.authors0 "a0" (Sample.primitive "age" "age")
    (VObj [("gt", VNull); ("eq", VNum 1)]) = Throw OnlyNeSupported
  /\ ~ firstKeyAsStated Sample.authors0 "a0" (Sample.primitive "age" "age")
         [("gt", VNull); ("eq", VNum 1)].
Proof.
  split; [reflexivity |].
  unfold firstKeyAsStated. simpl. intros [p Hp]. discriminate Hp.
Qed.

(** The same of a first key that is no operator: with a [null] operand the
    error is not the invalid-operator error. *)
Lemma first_key_unknown_null_operand :
  ~ firstKeyAsStated Sample.authors0 "a0" (Sample.primitive "age" "age")
      [("older", VNull); ("eq", VNum 1)].
Proof. unfold firstKeyAsStated. simpl. discriminate. Qed.

(** C10, amended.  A primitive clause that is an object with more than one
    key, one of them an operator, is handled as its first key and the value
    of that key alone; the other keys are ignored.  When the first key is an
    operator and its value is not null or absent (and is an array, for
    [in]), exactly one predicate is added, on the column of the clause: for
    [in] the membership in the mapped array, for any other operator the
    comparison the operator table spells.  When the first key is no
    operator the clause is refused although an operator is among its keys:
    with the unsupported-operation error when the value of the first key is
    null or absent, and with the invalid-operator error when it is not and
    the first key is not the name of a member that every object inherits
    ([toString], [constructor], ...). *)
Theorem first_key_dispatch q alias column k v rest :
  rest <> [] ->
  hasOperatorKey (VObj ((k, v) :: rest)) = true ->
  let clause := VObj ((k, v) :: rest) in
  addPrimitiveClause q alias column clause
  = addPrimitiveOperator q alias column (VStr k) v
  /\ (In k operators -> nullish v = false -> (k = "in" -> isArray v = true) ->
      exists p, addPrimitiveClause q alias column clause = Ok (addWhere q p)
                /\ predicateColumn p = columnOf alias column
                /\ (k = "in" ->
                    p = WhereIn (columnOf alias column)
                          (map (mapToDb (serde column)) (arrayItems v)))
                /\ (k <> "in" ->
                    exists fn, assoc k opToFnTable = Some fn
                      /\ p = WhereOp (columnOf alias column) fn
                                (mapToDb (serde column) v)))
  /\ (~ In k operators -> ~ In k inheritedMembers -> nullish v = false ->
      addPrimitiveClause q alias column clause = Throw (InvalidOperator (VStr k)))
  /\ (~ In k operators -> nullish v = true ->
      addPrimitiveClause q alias column clause = Throw OnlyNeSupported).
Proof.
  intros _ Hop clause.
  assert (Hdispatch : addPrimitiveClause q alias column clause
                      = addPrimitiveOperator q alias column (VStr k) v).
  { unfold addPrimitiveClause, clause. rewrite Hop. simpl truthy. simpl typeofObject.
    cbn [andb firstKey objectKeys map fst getAt]. now rewrite getProp_head. }
  split; [exact Hdispatch |]. rewrite Hdispatch.
  split; [| split].
  - intros Hk Hv Harr. destruct (String.eqb_spec k "in") as [-> | Hin].
    + specialize (Harr eq_refl). destruct v; try discriminate.
      eexists. repeat split; congruence.
    + destruct (addPrimitiveOperator_known q alias column k v Hk Hin Hv)
        as (fn & Hfn & ->).
      eexists. repeat split; [congruence |].
      intros _. exists fn. split; [exact Hfn | reflexivity].
  - intros Hk Hmember Hv. now apply addPrimitiveOperator_unknown.
  - intros Hk Hv. now apply addPrimitiveOperator_unknown_null.
Qed.

Lemma first_key_dispatch_witness :
  addPrimitiveClause Sample.authors0 "a0" (Sample.primitive "age" "age")
    (VObj [("older", VNum 30); ("gt", VNum 40)])
  = Throw (InvalidOperator (VStr "older")).
Proof.
  apply (first_key_dispatch Sample.authors0 "a0" (Sample.primitive "age" "age")
           "older" (VNum 30) [("gt", VNum 40)]);
    [discriminate | reflexivity | | | reflexivity];
    simpl; intros H; repeat (destruct H as [H | H]; [discriminate H |]); exact H.
Defined.

(** ** Foreign-key clauses *)

(** The step of the loop on a foreign-key field whose clause asks for no
    join: whether the related table is joined is up to the order-by. *)
Lemma addClause_foreignKey_noJoin getMetadata recurse meta alias fields o key st
    column other f clause q' :
  findColumn meta key = Some column ->
  serde column = ForeignKeySerde other f ->
  assoc key fields = Some clause ->
  addForeignKeyClause (query st) alias column clause = Ok (false, q') ->
  truthy (if truthy o then getProp o key else o) = false ->
  addClause getMetadata recurse meta alias (VObj fields) o key st
  = Ok (setQuery st q').
Proof.
  intros Hcol Hserde Hkey Hfk Horder. unfold addClause.
  rewrite Hcol. simpl. unfold hasProp. simpl. rewrite Hkey. simpl.
  rewrite Hserde, Hfk. simpl. now rewrite Horder.
Qed.

(** A filter that names one foreign-key field, by a clause that asks for
    no join, and gives no order-by: the compiled query has that one
    predicate and no join. *)
Lemma buildQuery_single_foreignKey getMetadata entityLimit fuel type key clause
    column other f p l off :
  findColumn (getMetadata type) key = Some column ->
  serde column = ForeignKeySerde other f ->
  (forall q alias, addForeignKeyClause q alias column clause = Ok (false, addWhere q (p alias))) ->
  exists q,
    buildQuery getMetadata entityLimit (S fuel) type
      {| where_of := VObj [(key, clause)]; orderBy_of := VUndefined;
         limit_of := l; offset_of := off |} = Ok q
    /\ joins q = []
    /\ wheres q = [p (abbreviation (tableName (getMetadata type)) +:+ "0")].
Proof.
  intros Hcol Hserde Hfk.
  unfold buildQuery, getAlias. rewrite lookup_empty.
  cbn [default where_of orderBy_of limit_of offset_of addClauses clauseKeys truthy
       objectKeys map fst app forEach].
  erewrite addClause_foreignKey_noJoin;
    [ | exact Hcol | exact Hserde | simpl; now rewrite String.eqb_refl
      | apply Hfk | reflexivity ].
  cbn [bind]. destruct (truthyNumber off); eexists; (split; [reflexivity |]);
    split; reflexivity.
Qed.

(** C6. A clause on a foreign-key field that is an entity without an
    identifier raises no error, asks for no join and leaves the joins as
    they are, and adds one predicate on the key column, [= -1], which keeps
    no row: a stored key is NULL or a positive number.  A filter of that
    one field compiles, to a query without a join. *)
Theorem unsaved_reference q alias column own :
  let p := fun alias => Where (columnOf alias column) (VNum (-1)) in
  addForeignKeyClause q alias column (VEntity None own)
  = Ok (false, addWhere q (p alias))
  /\ joins (addWhere q (p alias)) = joins q
  /\ wheres (addWhere q (p alias)) = wheres q ++ [p alias]
  /\ predicateColumn (p alias) = columnOf alias column
  /\ (forall stored, storedKey stored -> keeps (p alias) stored = Some false)
  /\ (forall getMetadata entityLimit fuel type key other f l off,
        findColumn (getMetadata type) key = Some column ->
        serde column = ForeignKeySerde other f ->
        exists q',
          buildQuery getMetadata entityLimit (S fuel) type
            {| where_of := VObj [(key, VEntity None own)]; orderBy_of := VUndefined;
               limit_of := l; offset_of := off |} = Ok q'
          /\ joins q' = []
          /\ wheres q' = [p (abbreviation (tableName (getMetadata type)) +:+ "0")]).
Proof.
  intros p. split; [reflexivity |]. split; [reflexivity |]. split; [reflexivity |].
  split; [reflexivity |]. split.
  - intros stored [-> | (n & -> & Hn)]; simpl; [reflexivity |].
    f_equal. lia.
  - intros getMetadata entityLimit fuel type key other f l off Hfind Hserde.
    eapply buildQuery_single_foreignKey; eauto.
Qed.

Lemma unsaved_reference_witness :
  exists p,
    addForeignKeyClause Sample.authors0 "a0"
      (Sample.foreignKey "mentor" "mentor_id" "Author") (VEntity None [])
    = Ok (false, addWhere Sample.authors0 p)
    /\ keeps p (VNum 12) = Some false.
Proof.
  destruct (unsaved_reference Sample.authors0 "a0"
              (Sample.foreignKey "mentor" "mentor_id" "Author") [])
    as (Hfk & _ & _ & _ & Hkeeps & _).
  eexists. split; [exact Hfk |].
  apply Hkeeps. right. exists 12. split; [reflexivity | lia].
Defined.

(** ** Unknown fields *)

Lemma forEach_app {K S : Type} (before after : list K) (body : K -> S -> outcome S) st :
  forEach (before ++ after) body st
  = bind (forEach before body st) (forEach after body).
Proof.
  revert st. induction before as [| key rest IH]; intros st; simpl; [reflexivity |].
  destruct (body key st); simpl; auto.
Qed.

Lemma forEach_never_Ok {K S : Type} (keys : list K) (body : K -> S -> outcome S) key :
  In key keys ->
  (forall st st', body key st <> Ok st') ->
  forall st st', forEach keys body st <> Ok st'.
Proof.
  intros Hin Hbody. induction keys as [| k rest IH]; [contradiction |].
  intros st st'. simpl.
  destruct Hin as [-> | Hin].
  - destruct (body key st) as [s | e |] eqn:Hs; simpl; try discriminate.
    now apply Hbody in Hs.
  - destruct (body k st) as [s | e |]; simpl; try discriminate.
    now apply IH.
Qed.

(** ** The recursion budget *)

Lemma approx_refl {A : Type} (m : outcome A) : approx m m.
Proof. now right. Qed.

Lemma approx_bind {A B : Type} (m m' : outcome A) (f f' : A -> outcome B) :
  approx m m' -> (forall a, approx (f a) (f' a)) -> approx (bind m f) (bind m' f').
Proof.
  intros [-> | <-] Hf; [now left |].
  destruct m as [a | e |]; simpl; [apply Hf | now right | now left].
Qed.

Lemma forEach_approx {K S : Type} (keys : list K) (body body' : K -> S -> outcome S) :
  (forall key st, approx (body key st) (body' key st)) ->
  forall st, approx (forEach keys body st) (forEach keys body' st).
Proof.
  intros Hbody. induction keys as [| key rest IH]; intros st; simpl.
  - apply approx_refl.
  - apply approx_bind; [apply Hbody | exact IH].
Qed.

Section Budget.

Variable getMetadata : string -> EntityMetadata.
Variable entityLimit : Z.

Lemma addClause_approx recurse recurse' meta alias w o key st :
  (forall m a w' o' s, approx (recurse m a w' o' s) (recurse' m a w' o' s)) ->
  approx (addClause getMetadata recurse meta alias w o key st)
         (addClause getMetadata recurse' meta alias w o key st).
Proof.
  intros Hrec. unfold addClause.
  apply approx_bind; [apply approx_refl | intros column].
  apply approx_bind; [apply approx_refl | intros hasClause].
  destruct (serde column) as [f | other f]; [apply approx_refl |].
  apply approx_bind; [apply approx_refl | intros r].
  case_match; [| apply approx_refl].
  destruct (getAlias _ _) as [otherAlias counters]. apply Hrec.
Qed.

(** One more level of recursion budget changes no run that completed. *)
Lemma addClauses_step fuel : forall meta alias w o st,
  approx (addClauses getMetadata fuel meta alias w o st)
         (addClauses getMetadata (S fuel) meta alias w o st).
Proof.
  induction fuel as [| fuel IH]; intros meta alias w o st; [now left |].
  change (approx
    (forEach (clauseKeys w o)
       (addClause getMetadata (addClauses getMetadata fuel) meta alias w o) st)
    (forEach (clauseKeys w o)
       (addClause getMetadata (addClauses getMetadata (S fuel)) meta alias w o) st)).
  apply forEach_approx. intros key s. apply addClause_approx. exact IH.
Qed.

Lemma addClauses_mono fuel fuel' meta alias w o st :
  (fuel <= fuel')%nat ->
  approx (addClauses getMetadata fuel meta alias w o st)
         (addClauses getMetadata fuel' meta alias w o st).
Proof.
  induction 1 as [| fuel' _ IH]; [apply approx_refl |].
  destruct IH as [-> | ->]; [now left | apply addClauses_step].
Qed.

Lemma buildQuery_mono fuel fuel' type filter :
  (fuel <= fuel')%nat ->
  approx (buildQuery getMetadata entityLimit fuel type filter)
         (buildQuery getMetadata entityLimit fuel' type filter).
Proof.
  intros Hle. unfold buildQuery.
  destruct (getAlias _ _) as [alias counters].
  apply approx_bind; [now apply addClauses_mono | intros st; apply approx_refl].
Qed.

End Budget.

(** ** Table aliases *)

(** The allocator: the abbreviation followed by the counter of the
    abbreviation, which goes up by one. *)
Lemma getAlias_counter tableName counters :
  let abbrev := abbreviation tableName in
  let i := default 0%nat (counters !! abbrev) in
  fst (getAlias tableName counters) = abbrev +:+ pretty i
  /\ snd (getAlias tableName counters) !! abbrev = Some (S i)
  /\ forall other, other <> abbrev ->
       snd (getAlias tableName counters) !! other = counters !! other.
Proof.
  simpl. split; [reflexivity |]. split.
  - apply lookup_insert_eq.
  - intros other Hother. now apply lookup_insert_ne.
Qed.

(** The abbreviation takes the first letter of the first word and goes on
    after the underscore. *)
Lemma abbreviation_word c word rest :
  (forall c', In c' (String.list_ascii_of_string (String c word)) -> c' <> "_"%char) ->
  abbreviation (String c word +:+ "_" +:+ rest)
  = String c (abbreviation rest).
Proof.
  intros Hword. unfold abbreviation.
  assert (Hsplit : forall w, (forall c', In c' (String.list_ascii_of_string w) ->
                                c' <> "_"%char) ->
            split ("_"%char) (w +:+ "_" +:+ rest)
            = w :: split ("_"%char) rest).
  { induction w as [| a w IH]; intros Hw; [reflexivity |].
    change (split ("_"%char) (String a (w +:+ "_" +:+ rest))
            = String a w :: split ("_"%char) rest).
    cbn [split]. destruct (Ascii.eqb_spec a ("_"%char)) as [-> | _].
    - exfalso. apply (Hw ("_"%char)); [now left | reflexivity].
    - rewrite IH; [reflexivity |]. intros c' Hc'. apply Hw. now right. }
  rewrite (Hsplit (String c word) Hword).
  destruct (split ("_"%char) rest); reflexivity.
Qed.

(** C2 fails on the code.  The table [top_10] abbreviates to [t1], so its
    alias is [t10]; the eleventh join of [tasks], which abbreviates to [t],
    gets the alias [t10] too. *)
Theorem alias_collision :
  exists q,
    buildQuery Sample.catalog Sample.defaultLimit 12 "Top10" Sample.elevenTasks = Ok q
    /\ refAlias (from q) = "t10"
    /\ map (fun j => refAlias (joinTable j)) (joins q)
       = ["t0"; "t1"; "t2"; "t3"; "t4"; "t5"; "t6"; "t7"; "t8"; "t9"; "t10"]
    /\ ~ NoDup (tableAliases q).
Proof.
  eexists. split; [vm_compute; reflexivity |].
  split; [reflexivity |]. split; [reflexivity |].
  unfold tableAliases. simpl. intros Hnodup.
  apply NoDup_cons in Hnodup as [Hnotin _]. apply Hnotin.
  repeat first [ apply list_elem_of_here | apply list_elem_of_further ].
Qed.

(** ** Termination

    The recursion of [addClauses] follows the nesting of the where-clause
    and of the order-by: a budget above their depth is never used up. *)

Lemma completes_bind {A B : Type} (m : outcome A) (f : A -> outcome B) :
  completes m -> (forall a, m = Ok a -> completes (f a)) -> completes (bind m f).
Proof.
  unfold completes. destruct m as [a | e |]; simpl; intros Hm Hf;
    [now apply Hf | discriminate | contradiction].
Qed.

Lemma forEach_completes {K S : Type} (keys : list K) (body : K -> S -> outcome S) :
  (forall key st, In key keys -> completes (body key st)) ->
  forall st, completes (forEach keys body st).
Proof.
  induction keys as [| key rest IH]; intros Hbody st; simpl; [discriminate |].
  apply completes_bind; [apply Hbody; now left |].
  intros st' _. apply IH. intros k s Hk. apply Hbody. now right.
Qed.

Lemma addPrimitiveOperator_completes q alias column op v :
  completes (addPrimitiveOperator q alias column op v).
Proof.
  unfold addPrimitiveOperator, mapItemsToDb, orFail, fail, completes.
  repeat case_match; simpl; discriminate.
Qed.

Lemma addPrimitiveClause_completes q alias column clause :
  completes (addPrimitiveClause q alias column clause).
Proof.
  unfold addPrimitiveClause, fail.
  repeat case_match; first [apply addPrimitiveOperator_completes | discriminate].
Qed.

Lemma addForeignKeyClause_completes q alias column clause :
  completes (addForeignKeyClause q alias column clause).
Proof.
  unfold addForeignKeyClause, completes. repeat case_match; discriminate.
Qed.

Lemma depth_assoc k (fields : list (string * value)) x :
  assoc k fields = Some x ->
  (depth x <= foldr (fun kv d => Nat.max (depth (snd kv)) d) 0 fields)%nat.
Proof.
  induction fields as [| [k' y] rest IH]; simpl; [discriminate |].
  destruct (String.eqb k' k); [intros [= ->]; lia |].
  intros H. apply IH in H. lia.
Qed.

Lemma depth_lookup (items : list value) (i : nat) x :
  items !! i = Some x ->
  (depth x <= foldr (fun y d => Nat.max (depth y) d) 0 items)%nat.
Proof.
  revert i. induction items as [| y rest IH]; intros [| i]; simpl; try discriminate.
  - intros [= ->]. lia.
  - intros H. apply IH in H. lia.
Qed.

(** A property of a value lies strictly inside it. *)
Lemma depth_getProp v k : (depth (getProp v k) <= Nat.pred (depth v))%nat.
Proof.
  destruct v as [| | b | n | s | t | items | fields | id own]; simpl; try lia.
  - repeat case_match; simpl; lia.
  - destruct (indexOfKey k (length items)) as [i |]; [| repeat case_match; simpl; lia].
    destruct (items !! i) as [x |] eqn:Hx; simpl; [| lia].
    now apply depth_lookup in Hx.
  - destruct (assoc k fields) as [x |] eqn:Hx; simpl; [| lia].
    now apply depth_assoc in Hx.
  - destruct (String.eqb k "id"); [destruct id; simpl; lia |].
    destruct (assoc k own) as [x |] eqn:Hx; simpl; [| lia].
    now apply depth_assoc in Hx.
Qed.

(** The keys of values that are neither objects nor arrays are indices. *)
Lemma clauseKeys_flat w o key :
  depth w = 0%nat -> depth o = 0%nat -> In key (clauseKeys w o) ->
  exists i : nat, key = pretty i.
Proof.
  assert (Hflat : forall v, depth v = 0%nat ->
            In key (if truthy v then objectKeys v else []) ->
            exists i : nat, key = pretty i).
  { intros v Hv Hin. destruct (truthy v); [| contradiction].
    destruct v; simpl in *; try contradiction; try discriminate.
    unfold indexKeys in Hin. apply in_map_iff in Hin as (i & <- & _). now exists i. }
  intros Hw Ho Hin. unfold clauseKeys in Hin.
  apply in_app_or in Hin as [Hin | Hin]; eauto.
Qed.

Lemma findColumn_Some meta key column :
  findColumn meta key = Some column ->
  In column (columns meta) /\ fieldName column = key.
Proof.
  unfold findColumn. intros H. apply find_some in H as [Hin Heq].
  split; [exact Hin | now apply String.eqb_eq].
Qed.

Section Termination.

Variable getMetadata : string -> EntityMetadata.
Variable entityLimit : Z.
Hypothesis noIndex : noIndexForeignKeys getMetadata.

Lemma addClauses_completes fuel : forall type alias w o st,
  (Nat.max (depth w) (depth o) < fuel)%nat ->
  completes (addClauses getMetadata fuel (getMetadata type) alias w o st).
Proof.
  induction fuel as [| fuel IH]; intros type alias w o st Hfuel; [lia |].
  simpl. apply forEach_completes. intros key s Hkey.
  unfold addClause.
  apply completes_bind; [unfold orFail, fail; case_match; discriminate |].
  intros column Hcolumn.
  assert (Hfound : findColumn (getMetadata type) key = Some column).
  { unfold orFail in Hcolumn. destruct (findColumn _ _); [congruence | discriminate]. }
  apply findColumn_Some in Hfound as [Hin Hname].
  apply completes_bind.
  { unfold hasProp. repeat case_match; discriminate. }
  intros hasClause _.
  destruct (serde column) as [f | other f] eqn:Hserde.
  - apply completes_bind;
      [destruct hasClause; [apply addPrimitiveClause_completes | discriminate] |].
    intros q _. case_match; discriminate.
  - apply completes_bind;
      [destruct hasClause; [apply addForeignKeyClause_completes | discriminate] |].
    intros r _. case_match; [| discriminate].
    destruct (getAlias _ _) as [otherAlias counters].
    apply IH.
    destruct (Nat.eq_dec (Nat.max (depth w) (depth o)) 0%nat) as [Hflat | Hdeep].
    + exfalso.
      destruct (clauseKeys_flat w o key) as [i Hi]; [lia | lia | exact Hkey |].
      apply (noIndex type column other f i Hin Hserde). congruence.
    + assert (Hw : (depth (if fst r then (if truthy w then getProp w key else w)
                           else VUndefined) <= Nat.pred (depth w))%nat).
      { destruct (fst r); [| apply Nat.le_0_l].
        destruct (truthy w) eqn:Hw; [apply depth_getProp |].
        destruct w; simpl in *; try lia; discriminate. }
      assert (Ho : (depth (if truthy (if truthy o then getProp o key else o)
                           then (if truthy o then getProp o key else o)
                           else VUndefined) <= Nat.pred (depth o))%nat).
      { destruct (truthy (if truthy o then getProp o key else o));
          [| apply Nat.le_0_l].
        destruct (truthy o) eqn:Ho; [apply depth_getProp |].
        destruct o; simpl in *; try lia; discriminate. }
      lia.
Qed.

(** With a budget above the depth of the filter, [buildQuery] returns a
    query or throws. *)
Lemma buildQuery_completes fuel type filter :
  (Nat.max (depth (where_of filter)) (depth (orderBy_of filter)) < fuel)%nat ->
  completes (buildQuery getMetadata entityLimit fuel type filter).
Proof.
  intros Hfuel. unfold buildQuery.
  destruct (getAlias _ _) as [alias counters].
  apply completes_bind; [now apply addClauses_completes | discriminate].
Qed.

End Termination.

(** ** When aliases are distinct

    The two parts of an alias are told apart when the abbreviation ends in
    no digit: then the aliases of a query are pairwise distinct. *)

Lemma allDigits_app s d : allDigits (s +:+ d) = allDigits s && allDigits d.
Proof.
  induction s as [| c s IH]; simpl; [reflexivity |].
  rewrite IH. apply andb_assoc.
Qed.

Lemma allDigits_endsInDigit s : s <> "" -> allDigits s = true -> endsInDigit s = true.
Proof.
  induction s as [| c s IH]; [contradiction |]. intros _ H. simpl in *.
  apply andb_prop in H as [Hc Hs].
  destruct s as [| c' s']; [exact Hc |]. apply IH; [discriminate | exact Hs].
Qed.

Lemma endsInDigit_tail c s : endsInDigit (String c s) = false -> endsInDigit s = false.
Proof. destruct s; [reflexivity | now simpl]. Qed.

(** The digits after an abbreviation that ends in no digit are all the
    digits at the end of the alias. *)
Lemma alias_parts s1 : forall s2 d1 d2,
  s1 +:+ d1 = s2 +:+ d2 ->
  endsInDigit s1 = false -> endsInDigit s2 = false ->
  allDigits d1 = true -> allDigits d2 = true ->
  s1 = s2 /\ d1 = d2.
Proof.
  induction s1 as [| c s1 IH]; intros [| c' s2] d1 d2 Heq H1 H2 Hd1 Hd2.
  - now split.
  - exfalso. change (d1 = String c' s2 +:+ d2) in Heq. subst d1.
    rewrite allDigits_app in Hd1. apply andb_prop in Hd1 as [Hs _].
    rewrite (allDigits_endsInDigit (String c' s2)) in H2; [discriminate .. | exact Hs].
  - exfalso. change (String c s1 +:+ d1 = d2) in Heq. subst d2.
    rewrite allDigits_app in Hd2. apply andb_prop in Hd2 as [Hs _].
    rewrite (allDigits_endsInDigit (String c s1)) in H1; [discriminate .. | exact Hs].
  - change (String c (s1 +:+ d1) = String c' (s2 +:+ d2)) in Heq.
    injection Heq as -> Heq.
    destruct (IH s2 d1 d2 Heq (endsInDigit_tail _ _ H1) (endsInDigit_tail _ _ H2) Hd1 Hd2)
      as [-> ->].
    now split.
Qed.

Lemma pretty_N_char_digit x : isDigit (pretty_N_char x) = true.
Proof. unfold pretty_N_char. repeat case_match; reflexivity. Qed.

Lemma pretty_N_go_digits x : forall s,
  allDigits s = true -> allDigits (pretty_N_go x s) = true.
Proof.
  induction (N.lt_wf_0 x) as [x _ IH]; intros s Hs.
  destruct (decide (x = 0)%N) as [-> | Hx]; [now rewrite pretty_N_go_0 |].
  rewrite pretty_N_go_step by lia.
  apply IH; [apply N.div_lt; lia |].
  simpl. now rewrite pretty_N_char_digit.
Qed.

Lemma pretty_nat_digits (i : nat) : allDigits (pretty i) = true.
Proof.
  unfold pretty, pretty_nat, pretty, pretty_N.
  case_decide; [reflexivity | now apply pretty_N_go_digits].
Qed.

Lemma sameTables_refl q : sameTables q q.
Proof. now split. Qed.

Lemma addPrimitiveOperator_sameTables q alias column op v :
  post (addPrimitiveOperator q alias column op v) (sameTables q).
Proof.
  unfold addPrimitiveOperator, mapItemsToDb, orFail, fail.
  repeat case_match; entry_cases; simpl;
    first [apply post_Throw | apply post_Ok; split; reflexivity].
Qed.

Lemma addPrimitiveClause_sameTables q alias column clause :
  post (addPrimitiveClause q alias column clause) (sameTables q).
Proof.
  unfold addPrimitiveClause, fail.
  repeat case_match;
    first [ apply addPrimitiveOperator_sameTables | apply post_Throw
          | apply post_Ok; split; reflexivity ].
Qed.

Lemma addForeignKeyClause_sameTables q alias column clause :
  post (addForeignKeyClause q alias column clause) (fun r => sameTables q (snd r)).
Proof.
  unfold addForeignKeyClause.
  repeat case_match;
    first [apply post_Throw | apply post_Ok; split; reflexivity].
Qed.

Lemma aliasesFresh_sameTables st q' :
  aliasesFresh st -> sameTables (query st) q' -> aliasesFresh (setQuery st q').
Proof.
  unfold aliasesFresh, sameTables, tableAliases. simpl.
  intros H [-> ->]. exact H.
Qed.

(** A join under the alias that [getAlias] returns keeps the aliases
    distinct. *)
Lemma aliasesFresh_join st table c1 c2 :
  aliasesFresh st ->
  endsInDigit (abbreviation table) = false ->
  aliasesFresh
    {| aliases := snd (getAlias table (aliases st));
       query := innerJoin (query st)
                  {| refTable := table; refAlias := fst (getAlias table (aliases st)) |}
                  c1 c2 |}.
Proof.
  intros [Hnodup Hshape] Hfree. unfold getAlias. cbn [fst snd].
  set (abbrev := abbreviation table) in *.
  set (i := default 0%nat (aliases st !! abbrev)).
  assert (Htables : tableAliases
            (innerJoin (query st) {| refTable := table; refAlias := abbrev +:+ pretty i |}
               c1 c2)
          = tableAliases (query st) ++ [abbrev +:+ pretty i]).
  { unfold tableAliases. simpl. now rewrite map_app. }
  unfold aliasesFresh. cbn [query aliases]. rewrite Htables. split.
  - apply NoDup_app. split; [exact Hnodup |]. split; [| apply NoDup_singleton].
    intros alias Hin Hnew. apply list_elem_of_singleton in Hnew. subst alias.
    apply list_elem_of_In, Hshape in Hin as (abbrev' & i' & Heq & Hfree' & Hlt).
    apply alias_parts in Heq as [<- Hpretty];
      auto using pretty_nat_digits.
    apply (inj pretty) in Hpretty. subst i'. unfold i in Hlt. lia.
  - intros alias Hin. apply in_app_or in Hin as [Hin | [<- | []]].
    + destruct (Hshape alias Hin) as (abbrev' & i' & Heq & Hfree' & Hlt).
      exists abbrev', i'. split; [exact Heq |]. split; [exact Hfree' |].
      destruct (decide (abbrev = abbrev')) as [<- | Hne].
      * rewrite lookup_insert_eq. simpl. fold i in Hlt. lia.
      * now rewrite lookup_insert_ne.
    + exists abbrev, i. split; [reflexivity |]. split; [exact Hfree |].
      rewrite lookup_insert_eq. simpl. lia.
Qed.

Section Distinct.

Variable getMetadata : string -> EntityMetadata.
Variable entityLimit : Z.
Hypothesis noDigit : digitFree getMetadata.

Lemma addClause_fresh recurse meta alias w o key st :
  (forall m a w' o' s, aliasesFresh s -> post (recurse m a w' o' s) aliasesFresh) ->
  aliasesFresh st ->
  post (addClause getMetadata recurse meta alias w o key st) aliasesFresh.
Proof.
  intros Hrec Hst. unfold addClause.
  eapply post_bind with (Q := fun _ => True); [intros ? _; exact I |].
  intros column _.
  eapply post_bind with (Q := fun _ => True); [intros ? _; exact I |].
  intros hasClause _.
  destruct (serde column) as [f | other f].
  - eapply post_bind with (Q := sameTables (query st)).
    + destruct hasClause; [apply addPrimitiveClause_sameTables |].
      apply post_Ok, sameTables_refl.
    + intros q [Hfrom Hjoins]. case_match; apply post_Ok;
        apply aliasesFresh_sameTables; try exact Hst; now split.
  - eapply post_bind with (Q := fun r => sameTables (query st) (snd r)).
    + destruct hasClause; [apply addForeignKeyClause_sameTables |].
      apply post_Ok, sameTables_refl.
    + intros [needsJoin q] Hq. simpl in Hq.
      pose proof (aliasesFresh_sameTables st q Hst Hq) as Hst'.
      cbn [fst snd]. case_match; [| apply post_Ok; exact Hst'].
      pose proof (aliasesFresh_join (setQuery st q)
                    (tableName (getMetadata other)) (columnOf alias column)
                    {| colAlias := fst (getAlias (tableName (getMetadata other))
                                          (aliases (setQuery st q)));
                       colName := "id" |} Hst' (noDigit other)) as Hjoin.
      destruct (getAlias _ _) as [otherAlias counters]. apply Hrec. exact Hjoin.
Qed.

Lemma addClauses_fresh fuel : forall meta alias w o st,
  aliasesFresh st ->
  post (addClauses getMetadata fuel meta alias w o st) aliasesFresh.
Proof.
  induction fuel as [| fuel IH]; intros meta alias w o st Hst; simpl.
  - apply post_OutOfFuel.
  - apply (forEach_post aliasesFresh); [| exact Hst].
    intros key s Hs. apply addClause_fresh; [| exact Hs].
    intros m a w' o' s' Hs'. now apply IH.
Qed.

(** When no abbreviation of the catalog ends in a digit, the aliases of a
    compiled query -- one for the base table and one for each join -- are
    pairwise distinct. *)
Lemma aliases_distinct fuel type filter q :
  buildQuery getMetadata entityLimit fuel type filter = Ok q ->
  NoDup (tableAliases q) /\ length (tableAliases q) = S (length (joins q)).
Proof.
  intros H. split; [| unfold tableAliases; simpl; now rewrite length_map].
  apply buildQuery_Ok in H as (st & Hst & _ & ->).
  apply addClauses_fresh in Hst as [Hnodup _].
  - destruct (truthyNumber (offset_of filter)); exact Hnodup.
  - unfold aliasesFresh, tableAliases. simpl. split.
    + apply NoDup_singleton.
    + intros alias [<- | []].
      exists (abbreviation (tableName (getMetadata type))), 0%nat.
      split; [reflexivity |]. split; [apply noDigit |].
      rewrite lookup_insert_eq. simpl. lia.
Qed.

End Distinct.

(** The sample catalog of authors and publishers meets the two conditions,
    so every filter on it compiles, within a budget above its depth, to a
    query whose aliases are distinct. *)
Lemma library_digitFree : digitFree Sample.library.
Proof. intros type. unfold Sample.library. now destruct (String.eqb type "Author"). Qed.

Lemma library_noIndexForeignKeys : noIndexForeignKeys Sample.library.
Proof.
  intros type column other f i Hin Hserde Hname.
  pose proof (pretty_nat_digits i) as Hdigits. rewrite <- Hname in Hdigits.
  unfold Sample.library in Hin.
  destruct (String.eqb type "Author"); simpl in Hin;
    repeat (destruct Hin as [<- | Hin]; [discriminate |]); contradiction.
Qed.

Lemma library_compiles fuel type filter :
  (Nat.max (depth (where_of filter)) (depth (orderBy_of filter)) < fuel)%nat ->
  (exists q, buildQuery Sample.library Sample.defaultLimit fuel type filter = Ok q
             /\ NoDup (tableAliases q))
  \/ exists e, buildQuery Sample.library Sample.defaultLimit fuel type filter = Throw e.
Proof.
  intros Hfuel.
  pose proof (buildQuery_completes Sample.library Sample.defaultLimit
                library_noIndexForeignKeys fuel type filter Hfuel) as Hdone.
  destruct (buildQuery _ _ _ _ _) as [q | e |] eqn:Hq; [| eauto | contradiction].
  left. exists q. split; [reflexivity |].
  now apply (aliases_distinct Sample.library Sample.defaultLimit library_digitFree) in Hq.
Qed.

(** * Further properties *)

(** ** The steps of the compiler, unfolded *)

Lemma buildQuery_run getMetadata entityLimit fuel type filter :
  buildQuery getMetadata entityLimit fuel type filter
  = bind (addClauses getMetadata fuel (getMetadata type) (baseAlias getMetadata type)
            (where_of filter) (orderBy_of filter) (baseState getMetadata type))
         (fun st => Ok (paginate entityLimit filter (baseAlias getMetadata type) (query st))).
Proof. unfold buildQuery, getAlias. rewrite lookup_empty. reflexivity. Qed.

(** The clause the loop finds for a key: that of an object where-clause,
    none in a where-clause that is absent. *)
Lemma addClause_primitive getMetadata recurse meta alias w o key st column f :
  findColumn meta key = Some column ->
  serde column = PrimitiveSerde f ->
  (exists fields, w = VObj fields) \/ truthy w = false ->
  addClause getMetadata recurse meta alias w o key st
  = bind (if propIn key w
          then addPrimitiveClause (query st) alias column (getProp w key)
          else Ok (query st))
      (fun q =>
         Ok (setQuery st
               (if truthy (entryOf o key)
                then Knex.orderBy q (columnOf alias column) (entryOf o key)
                else q))).
Proof.
  intros Hcol Hserde Hw. unfold addClause, entryOf. rewrite Hcol. cbn [orFail bind].
  destruct Hw as [[fields ->] | Hw].
  - cbn [truthy hasProp typeofObject nullish negb andb bind]. rewrite Hserde.
    now destruct (truthy (if truthy o then getProp o key else o)).
  - rewrite Hw. cbn [bind]. rewrite Hserde.
    assert (Hin : propIn key w = false) by (destruct w; simpl in *; congruence).
    rewrite Hin. now destruct (truthy (if truthy o then getProp o key else o)).
Qed.

Lemma addClause_foreignKey getMetadata recurse meta alias w o key st column other f :
  findColumn meta key = Some column ->
  serde column = ForeignKeySerde other f ->
  (exists fields, w = VObj fields) \/ truthy w = false ->
  addClause getMetadata recurse meta alias w o key st
  = bind (if propIn key w
          then addForeignKeyClause (query st) alias column (getProp w key)
          else Ok (false, query st))
      (fun r =>
         if fst r || truthy (entryOf o key) then
           let j := joinOf getMetadata alias column other (aliases st) in
           recurse (getMetadata other) (refAlias (joinTable j))
             (if fst r then entryOf w key else VUndefined)
             (if truthy (entryOf o key) then entryOf o key else VUndefined)
             {| aliases := snd (getAlias (tableName (getMetadata other)) (aliases st));
                query := innerJoin (snd r) (joinTable j) (joinFirst j) (joinSecond j) |}
         else Ok (setQuery st (snd r))).
Proof.
  intros Hcol Hserde Hw. unfold addClause, entryOf, joinOf. rewrite Hcol.
  cbn [orFail bind].
  destruct Hw as [[fields ->] | Hw].
  - cbn [truthy hasProp typeofObject nullish negb andb bind]. rewrite Hserde.
    destruct (propIn key (VObj fields)); [| reflexivity].
    destruct (addForeignKeyClause _ _ _ _) as [r | e |]; reflexivity.
  - rewrite Hw. cbn [bind]. rewrite Hserde.
    assert (Hin : propIn key w = false) by (destruct w; simpl in *; congruence).
    rewrite Hin. reflexivity.
Qed.

Lemma addPrimitiveClause_scalar q alias column v :
  isScalar v = true ->
  addPrimitiveClause q alias column v
  = Ok (where_ q (columnOf alias column) (mapToDb (serde column) v)).
Proof.
  destruct v; try discriminate; intros _; unfold addPrimitiveClause; simpl;
    rewrite ?andb_false_r; reflexivity.
Qed.

Lemma assoc_single {A : Type} key (a : A) : assoc key [(key, a)] = Some a.
Proof. simpl. now rewrite String.eqb_refl. Qed.

Lemma propIn_single key v : propIn key (VObj [(key, v)]) = true.
Proof. simpl. now rewrite String.eqb_refl. Qed.

Lemma entryOf_single key v : entryOf (VObj [(key, v)]) key = v.
Proof. unfold entryOf. simpl. now rewrite String.eqb_refl. Qed.

(** ** A field named by the where-clause and by the order-by *)

(** X1. The keys of the where-clause and of the order-by are run one after
    the other, not merged: a primitive field that both name is compiled
    twice, so its predicate and its order term appear twice in the query. *)
Theorem key_named_twice getMetadata entityLimit fuel type key column f v d l off :
  findColumn (getMetadata type) key = Some column ->
  serde column = PrimitiveSerde f ->
  isScalar v = true ->
  truthy d = true ->
  let alias := baseAlias getMetadata type in
  let p := Where (columnOf alias column) (f v) in
  let t := {| orderColumn := columnOf alias column; orderDirection := d |} in
  exists q,
    buildQuery getMetadata entityLimit (S fuel) type
      {| where_of := VObj [(key, v)]; orderBy_of := VObj [(key, d)];
         limit_of := l; offset_of := off |} = Ok q
    /\ wheres q = [p; p]
    /\ orders q = [t; t; baseIdTerm q]
    /\ joins q = [].
Proof.
  intros Hcol Hserde Hv Hd alias p t.
  rewrite buildQuery_run. cbn [where_of orderBy_of addClauses].
  unfold clauseKeys. cbn [truthy objectKeys map fst app forEach].
  rewrite (addClause_primitive _ _ _ _ _ _ _ _ column f Hcol Hserde) by eauto.
  rewrite propIn_single, getProp_head, addPrimitiveClause_scalar by exact Hv.
  cbn [bind]. rewrite entryOf_single, Hd.
  rewrite (addClause_primitive _ _ _ _ _ _ _ _ column f Hcol Hserde) by eauto.
  rewrite propIn_single, getProp_head, addPrimitiveClause_scalar by exact Hv.
  cbn [bind]. rewrite entryOf_single, Hd. rewrite Hserde. cbn [mapToDb].
  unfold paginate. cbn [limit_of offset_of].
  destruct (truthyNumber off); eexists; (split; [reflexivity |]);
    repeat split; reflexivity.
Qed.

Lemma key_named_twice_witness :
  exists q,
    buildQuery Sample.catalog Sample.defaultLimit 1 "Author"
      (Sample.filterOf (VObj [("age", VNum 30)]) (VObj [("age", VStr "DESC")])
         None None) = Ok q
    /\ length (wheres q) = 2%nat /\ length (orders q) = 3%nat.
Proof.
  destruct (key_named_twice Sample.catalog Sample.defaultLimit 0 "Author" "age"
              (Sample.primitive "age" "age") Sample.keep (VNum 30) (VStr "DESC")
              None None eq_refl eq_refl eq_refl eq_refl)
    as (q & Hq & Hwheres & Horders & _).
  exists q. split; [exact Hq |]. now rewrite Hwheres, Horders.
Defined.

(** ** Arrays are not operator objects *)

Lemma indexKeys_digits k n : In k (indexKeys n) -> allDigits k = true.
Proof.
  unfold indexKeys. intros Hin. apply in_map_iff in Hin as (i & <- & _).
  apply pretty_nat_digits.
Qed.

Lemma indexOfKey_word k n : allDigits k = false -> indexOfKey k n = None.
Proof.
  intros Hk. unfold indexOfKey.
  destruct (find _ _) as [i |] eqn:Hfind; [| reflexivity].
  apply find_some in Hfind as [_ Heq]. apply String.eqb_eq in Heq.
  rewrite <- Heq, pretty_nat_digits in Hk. discriminate.
Qed.

Lemma existsb_indexKeys op n :
  allDigits op = false -> existsb (String.eqb op) (indexKeys n) = false.
Proof.
  intros Hop. destruct (existsb _ _) eqn:Hex; [| reflexivity].
  apply existsb_exists in Hex as (k & Hin & Heq). apply String.eqb_eq in Heq.
  subst k. apply indexKeys_digits in Hin. congruence.
Qed.

(** The keys of an array are its indices, none of them an operator. *)
Lemma hasOperatorKey_array items : hasOperatorKey (VArr items) = false.
Proof.
  unfold hasOperatorKey, operators. cbn [objectKeys existsb].
  rewrite !existsb_indexKeys by reflexivity. reflexivity.
Qed.

Lemma addPrimitiveClause_array q alias column items :
  addPrimitiveClause q alias column (VArr items)
  = Ok (whereIn q (columnOf alias column) (map (mapToDb (serde column)) items)).
Proof.
  unfold addPrimitiveClause. rewrite hasOperatorKey_array.
  cbn [truthy typeofObject andb propIn].
  rewrite indexOfKey_word by reflexivity. reflexivity.
Qed.

(** ** Filters of one field *)

(** A where-clause of one primitive field, and no order-by. *)
Lemma buildQuery_single_primitive getMetadata entityLimit fuel type key clause
    column f l off q' :
  findColumn (getMetadata type) key = Some column ->
  serde column = PrimitiveSerde f ->
  addPrimitiveClause (query (baseState getMetadata type)) (baseAlias getMetadata type)
    column clause = Ok q' ->
  buildQuery getMetadata entityLimit (S fuel) type
    {| where_of := VObj [(key, clause)]; orderBy_of := VUndefined;
       limit_of := l; offset_of := off |}
  = Ok (paginate entityLimit
          {| where_of := VObj [(key, clause)]; orderBy_of := VUndefined;
             limit_of := l; offset_of := off |}
          (baseAlias getMetadata type) q').
Proof.
  intros Hcol Hserde Hclause.
  rewrite buildQuery_run. cbn [where_of orderBy_of addClauses].
  unfold clauseKeys. cbn [truthy objectKeys map fst app forEach].
  rewrite (addClause_primitive _ _ _ _ _ _ _ _ column f Hcol Hserde) by eauto.
  rewrite propIn_single, getProp_head, Hclause. reflexivity.
Qed.

Lemma paginate_wheres entityLimit filter alias q :
  wheres (paginate entityLimit filter alias q) = wheres q
  /\ joins (paginate entityLimit filter alias q) = joins q
  /\ from (paginate entityLimit filter alias q) = from q
  /\ selects (paginate entityLimit filter alias q) = selects q
  /\ orders (paginate entityLimit filter alias q)
     = orders q ++ [{| orderColumn := {| colAlias := alias; colName := "id" |};
                       orderDirection := VUndefined |}].
Proof. unfold paginate. destruct (truthyNumber (offset_of filter)); repeat split. Qed.

(** X2. On a primitive field the bare clause shapes each give one
    predicate on the column of the field -- a scalar an equality, an array
    (even an empty one) a membership, [null] "is null" -- except an explicit
    [undefined], which gives none: the field is left unconstrained. *)
Theorem primitive_filter_shapes getMetadata entityLimit fuel type key column f l off :
  findColumn (getMetadata type) key = Some column ->
  serde column = PrimitiveSerde f ->
  let c := columnOf (baseAlias getMetadata type) column in
  let compiled clause predicates :=
    exists q,
      buildQuery getMetadata entityLimit (S fuel) type
        {| where_of := VObj [(key, clause)]; orderBy_of := VUndefined;
           limit_of := l; offset_of := off |} = Ok q
      /\ wheres q = predicates /\ joins q = [] in
  (forall v, isScalar v = true -> compiled v [Where c (f v)])
  /\ (forall items, compiled (VArr items) [WhereIn c (map f items)])
  /\ compiled VNull [WhereNull c]
  /\ compiled VUndefined [].
Proof.
  intros Hcol Hserde c compiled.
  assert (Hrun : forall clause q',
            addPrimitiveClause (query (baseState getMetadata type))
              (baseAlias getMetadata type) column clause = Ok q' ->
            compiled clause (wheres q') \/ joins q' <> []).
  { intros clause q' Hq'. destruct (joins q') eqn:Hjoins; [left | now right].
    eexists. split; [eapply buildQuery_single_primitive; eauto |].
    destruct (paginate_wheres entityLimit
                {| where_of := VObj [(key, clause)]; orderBy_of := VUndefined;
                   limit_of := l; offset_of := off |}
                (baseAlias getMetadata type) q') as (-> & -> & _).
    now split. }
  assert (Hf : mapToDb (serde column) = f) by now rewrite Hserde.
  split; [| split; [| split]].
  - intros v Hv.
    destruct (Hrun v _ (addPrimitiveClause_scalar _ _ _ v Hv)) as [H | H];
      [| now contradict H].
    now rewrite Hf in H.
  - intros items.
    destruct (Hrun (VArr items) _ (addPrimitiveClause_array _ _ _ items)) as [H | H];
      [| now contradict H].
    now rewrite Hf in H.
  - destruct (Hrun VNull _ eq_refl) as [H | H]; [exact H | now contradict H].
  - destruct (Hrun VUndefined _ eq_refl) as [H | H]; [exact H | now contradict H].
Qed.

Lemma primitive_filter_shapes_witness :
  exists q,
    buildQuery Sample.catalog Sample.defaultLimit 1 "Author"
      (Sample.filterOf (VObj [("age", VUndefined)]) VUndefined None None) = Ok q
    /\ wheres q = [] /\ joins q = [].
Proof.
  destruct (primitive_filter_shapes Sample.catalog Sample.defaultLimit 0 "Author" "age"
              (Sample.primitive "age" "age") Sample.keep None None eq_refl eq_refl)
    as (_ & _ & _ & Hundefined).
  exact Hundefined.
Defined.

(** X3. On a foreign-key field [null] and an explicit [undefined] alike
    give the predicate "is null" on the key column, and no join: unlike on
    a primitive field, [undefined] does constrain the field. *)
Theorem foreign_key_nullish getMetadata entityLimit fuel type key column other f
    clause l off :
  findColumn (getMetadata type) key = Some column ->
  serde column = ForeignKeySerde other f ->
  nullish clause = true ->
  exists q,
    buildQuery getMetadata entityLimit (S fuel) type
      {| where_of := VObj [(key, clause)]; orderBy_of := VUndefined;
         limit_of := l; offset_of := off |} = Ok q
    /\ wheres q = [WhereNull (columnOf (baseAlias getMetadata type) column)]
    /\ joins q = [].
Proof.
  intros Hcol Hserde Hclause.
  destruct (buildQuery_single_foreignKey getMetadata entityLimit fuel type key clause
              column other f (fun alias => WhereNull (columnOf alias column)) l off
              Hcol Hserde) as (q & Hq & Hjoins & Hwheres).
  - intros q alias. destruct clause; try discriminate; reflexivity.
  - exists q. split; [exact Hq |]. split; [exact Hwheres | exact Hjoins].
Qed.

Lemma foreign_key_nullish_witness :
  exists q,
    buildQuery Sample.catalog Sample.defaultLimit 1 "Author"
      (Sample.filterOf (VObj [("publisher", VUndefined)]) VUndefined None None) = Ok q
    /\ wheres q = [WhereNull {| colAlias := "a0"; colName := "publisher_id" |}]
    /\ joins q = [].
Proof.
  exact (foreign_key_nullish Sample.catalog Sample.defaultLimit 0 "Author" "publisher"
           (Sample.foreignKey "publisher" "publisher_id" "Publisher") "Publisher"
           Sample.keep VUndefined None None eq_refl eq_refl eq_refl).
Defined.

(** ** Joins *)

Lemma addForeignKeyClause_nested q alias column fields :
  map fst fields <> ["id"] -> map fst fields <> ["ne"] ->
  addForeignKeyClause q alias column (VObj fields) = Ok (true, q).
Proof.
  intros Hid Hne. unfold addForeignKeyClause.
  cbn [isEntity typeofString isArray orb nullish typeofObject negb andb objectKeys].
  rewrite !bool_decide_false by assumption. reflexivity.
Qed.

Lemma map_fst_single (key : string) (v : value) (name : string) :
  key <> name -> map fst [(key, v)] <> [name].
Proof. intros Hne [= Heq]. now apply Hne. Qed.

(** X4. A foreign-key clause that is a number, a boolean or a date is not
    taken for an identifier (only a string is): the related table is joined
    and the query gets no predicate at all. *)
Theorem unquoted_key_joins getMetadata entityLimit fuel type key column other f
    clause l off :
  findColumn (getMetadata type) key = Some column ->
  serde column = ForeignKeySerde other f ->
  isScalar clause = true -> typeofString clause = false ->
  exists q,
    buildQuery getMetadata entityLimit (S (S fuel)) type
      {| where_of := VObj [(key, clause)]; orderBy_of := VUndefined;
         limit_of := l; offset_of := off |} = Ok q
    /\ joins q = [joinOf getMetadata (baseAlias getMetadata type) column other
                    (aliases (baseState getMetadata type))]
    /\ wheres q = [].
Proof.
  intros Hcol Hserde Hscalar Hstring.
  rewrite buildQuery_run. cbn [where_of orderBy_of].
  change (addClauses getMetadata (S (S fuel))) with
    (fun meta alias w o st =>
       forEach (clauseKeys w o)
         (addClause getMetadata (addClauses getMetadata (S fuel)) meta alias w o) st).
  cbv beta. unfold clauseKeys at 1. cbn [truthy objectKeys map fst app forEach].
  rewrite (addClause_foreignKey _ _ _ _ _ _ _ _ column other f Hcol Hserde) by eauto.
  rewrite propIn_single, getProp_head.
  assert (Hfk : forall q, addForeignKeyClause q (baseAlias getMetadata type) column clause
                          = Ok (true, q)).
  { intros q. destruct clause; try discriminate; reflexivity. }
  rewrite Hfk. cbn [bind fst snd orb].
  assert (Hkeys : clauseKeys (entryOf (VObj [(key, clause)]) key) VUndefined = []).
  { rewrite entryOf_single. unfold clauseKeys.
    destruct clause; try discriminate; simpl; repeat case_match; reflexivity. }
  cbn [addClauses]. change (entryOf VUndefined key) with VUndefined. cbn [truthy].
  rewrite Hkeys. cbn [forEach bind].
  eexists. split; [reflexivity |].
  destruct (paginate_wheres entityLimit
              {| where_of := VObj [(key, clause)]; orderBy_of := VUndefined;
                 limit_of := l; offset_of := off |}
              (baseAlias getMetadata type)
              (innerJoin (query (baseState getMetadata type))
                 (joinTable (joinOf getMetadata (baseAlias getMetadata type) column other
                               (aliases (baseState getMetadata type))))
                 (joinFirst (joinOf getMetadata (baseAlias getMetadata type) column other
                               (aliases (baseState getMetadata type))))
                 (joinSecond (joinOf getMetadata (baseAlias getMetadata type) column other
                                (aliases (baseState getMetadata type))))))
    as (Hw & Hj & _).
  cbn [query] in Hw, Hj |- *. rewrite Hw, Hj. split; reflexivity.
Qed.

Lemma unquoted_key_joins_witness :
  exists q,
    buildQuery Sample.catalog Sample.defaultLimit 2 "Author"
      (Sample.filterOf (VObj [("publisher", VNum 7)]) VUndefined None None) = Ok q
    /\ map (fun j => refAlias (joinTable j)) (joins q) = ["p0"]
    /\ wheres q = [].
Proof.
  destruct (unquoted_key_joins Sample.catalog Sample.defaultLimit 0 "Author" "publisher"
              (Sample.foreignKey "publisher" "publisher_id" "Publisher") "Publisher"
              Sample.keep (VNum 7) None None eq_refl eq_refl eq_refl eq_refl)
    as (q & Hq & Hjoins & Hwheres).
  exists q. split; [exact Hq |]. split; [| exact Hwheres].
  rewrite Hjoins. vm_compute. reflexivity.
Defined.

(** X5. A where-clause that filters a foreign-key field by a field of the
    related entity compiles to one inner join -- the key column of the base
    table against the [id] of the related table, under a fresh alias -- and
    one predicate, on the column of the related table under that alias. *)
Theorem nested_filter_joins getMetadata entityLimit fuel type key column other f
    key2 column2 f2 v l off :
  findColumn (getMetadata type) key = Some column ->
  serde column = ForeignKeySerde other f ->
  findColumn (getMetadata other) key2 = Some column2 ->
  serde column2 = PrimitiveSerde f2 ->
  key2 <> "id" -> key2 <> "ne" ->
  isScalar v = true ->
  let j := joinOf getMetadata (baseAlias getMetadata type) column other
             (aliases (baseState getMetadata type)) in
  exists q,
    buildQuery getMetadata entityLimit (S (S fuel)) type
      {| where_of := VObj [(key, VObj [(key2, v)])]; orderBy_of := VUndefined;
         limit_of := l; offset_of := off |} = Ok q
    /\ joins q = [j]
    /\ wheres q = [Where (columnOf (refAlias (joinTable j)) column2) (f2 v)].
Proof.
  intros Hcol Hserde Hcol2 Hserde2 Hid Hne Hv j.
  rewrite buildQuery_run. cbn [where_of orderBy_of].
  change (addClauses getMetadata (S (S fuel))) with
    (fun meta alias w o st =>
       forEach (clauseKeys w o)
         (addClause getMetadata (addClauses getMetadata (S fuel)) meta alias w o) st).
  cbv beta. unfold clauseKeys at 1. cbn [truthy objectKeys map fst app forEach].
  rewrite (addClause_foreignKey _ _ _ _ _ _ _ _ column other f Hcol Hserde) by eauto.
  rewrite propIn_single, getProp_head.
  rewrite addForeignKeyClause_nested by (now apply map_fst_single).
  cbn [bind fst snd orb]. rewrite entryOf_single.
  change (entryOf VUndefined key) with VUndefined. cbn [truthy].
  cbn [addClauses]. unfold clauseKeys. cbn [truthy objectKeys map fst app forEach].
  rewrite (addClause_primitive _ _ _ _ _ _ _ _ column2 f2 Hcol2 Hserde2) by eauto.
  rewrite propIn_single, getProp_head, addPrimitiveClause_scalar by exact Hv.
  cbn [bind]. change (entryOf VUndefined key2) with VUndefined. cbn [truthy bind].
  rewrite Hserde2. cbn [mapToDb].
  eexists. split; [reflexivity |].
  match goal with
  | |- joins (paginate ?e ?f ?a ?q0) = _ /\ _ =>
      destruct (paginate_wheres e f a q0) as (Hw & Hj & _); rewrite Hw, Hj
  end.
  split; reflexivity.
Qed.

Lemma nested_filter_joins_witness :
  exists q,
    buildQuery Sample.catalog Sample.defaultLimit 2 "Author"
      (Sample.filterOf (VObj [("publisher", VObj [("name", VStr "Acme")])])
         VUndefined None None) = Ok q
    /\ map (fun j => refAlias (joinTable j)) (joins q) = ["p0"]
    /\ wheres q = [Where {| colAlias := "p0"; colName := "name" |} (VStr "Acme")].
Proof.
  destruct (nested_filter_joins Sample.catalog Sample.defaultLimit 0 "Author"
              "publisher" (Sample.foreignKey "publisher" "publisher_id" "Publisher")
              "Publisher" Sample.keep "name" (Sample.primitive "name" "name")
              Sample.keep (VStr "Acme") None None
              eq_refl eq_refl eq_refl eq_refl
              ltac:(discriminate) ltac:(discriminate) eq_refl)
    as (q & Hq & Hjoins & Hwheres).
  exists q. split; [exact Hq |].
  rewrite Hjoins, Hwheres. split; vm_compute; reflexivity.
Defined.

(** X6. An order-by on a field of a related entity joins the related table
    although the where-clause does not mention it, and sorts by the column
    of the related table under the alias of the join, before the [id] of
    the base table; the query gets no predicate. *)
Theorem order_by_related_joins getMetadata entityLimit fuel type key column other f
    key2 column2 f2 d l off :
  findColumn (getMetadata type) key = Some column ->
  serde column = ForeignKeySerde other f ->
  findColumn (getMetadata other) key2 = Some column2 ->
  serde column2 = PrimitiveSerde f2 ->
  truthy d = true ->
  let j := joinOf getMetadata (baseAlias getMetadata type) column other
             (aliases (baseState getMetadata type)) in
  exists q,
    buildQuery getMetadata entityLimit (S (S fuel)) type
      {| where_of := VObj []; orderBy_of := VObj [(key, VObj [(key2, d)])];
         limit_of := l; offset_of := off |} = Ok q
    /\ joins q = [j]
    /\ wheres q = []
    /\ orders q = [{| orderColumn := columnOf (refAlias (joinTable j)) column2;
                      orderDirection := d |};
                   baseIdTerm q].
Proof.
  intros Hcol Hserde Hcol2 Hserde2 Hd j.
  rewrite buildQuery_run. cbn [where_of orderBy_of].
  change (addClauses getMetadata (S (S fuel))) with
    (fun meta alias w o st =>
       forEach (clauseKeys w o)
         (addClause getMetadata (addClauses getMetadata (S fuel)) meta alias w o) st).
  cbv beta. unfold clauseKeys at 1. cbn [truthy objectKeys map fst app forEach].
  rewrite (addClause_foreignKey _ _ _ _ _ _ _ _ column other f Hcol Hserde) by eauto.
  cbn [propIn assoc bool_decide]. rewrite bool_decide_false by (intros [x Hx]; discriminate).
  cbn [bind fst snd orb]. rewrite entryOf_single. cbn [truthy].
  cbn [addClauses]. unfold clauseKeys. cbn [truthy objectKeys map fst app forEach].
  rewrite (addClause_primitive _ _ _ _ _ _ _ _ column2 f2 Hcol2 Hserde2) by eauto.
  cbn [propIn bind]. rewrite entryOf_single, Hd. cbn [bind].
  eexists. split; [reflexivity |].
  match goal with
  | |- joins (paginate ?e ?f ?a ?q0) = _ /\ _ =>
      destruct (paginate_wheres e f a q0) as (Hw & Hj & Hf & _ & Ho);
      unfold baseIdTerm; rewrite Hw, Hj, Hf, Ho
  end.
  repeat split.
Qed.

Lemma order_by_related_joins_witness :
  exists q,
    buildQuery Sample.catalog Sample.defaultLimit 2 "Author"
      (Sample.filterOf (VObj []) (VObj [("publisher", VObj [("name", VStr "ASC")])])
         None None) = Ok q
    /\ map (fun j => refAlias (joinTable j)) (joins q) = ["p0"]
    /\ length (orders q) = 2%nat.
Proof.
  destruct (order_by_related_joins Sample.catalog Sample.defaultLimit 0 "Author"
              "publisher" (Sample.foreignKey "publisher" "publisher_id" "Publisher")
              "Publisher" Sample.keep "name" (Sample.primitive "name" "name")
              Sample.keep (VStr "ASC") None None
              eq_refl eq_refl eq_refl eq_refl eq_refl)
    as (q & Hq & Hjoins & _ & Horders).
  exists q. split; [exact Hq |].
  rewrite Hjoins, Horders. split; [vm_compute; reflexivity | reflexivity].
Defined.

(** ** The spellings of an operator clause *)

(** X7. The two spellings of an operator clause on a primitive field,
    [{ op: k, value: v }] and [{ k: v }], compile alike for each of the
    nine operators [k], whatever the value: to the same predicate or to the
    same error. *)
Theorem operator_spellings_agree q alias column k v :
  In k operators ->
  addPrimitiveClause q alias column (VObj [("op", VStr k); ("value", v)])
  = addPrimitiveClause q alias column (VObj [(k, v)])
  /\ addPrimitiveClause q alias column (VObj [(k, v)])
     = addPrimitiveOperator q alias column (VStr k) v.
Proof.
  intros Hk. simpl in Hk.
  destruct Hk as [<- | [<- | [<- | [<- | [<- | [<- | [<- | [<- | [<- | []]]]]]]]]];
    split; reflexivity.
Qed.

Lemma operator_spellings_agree_witness :
  addPrimitiveClause Sample.authors0 "a0" (Sample.primitive "age" "age")
    (VObj [("op", VStr "gte"); ("value", VNum 18)])
  = Ok (whereOp Sample.authors0 {| colAlias := "a0"; colName := "age" |} ">=" (VNum 18)).
Proof.
  destruct (operator_spellings_agree Sample.authors0 "a0" (Sample.primitive "age" "age")
              "gte" (VNum 18)) as [Hop Hkey]; [simpl; tauto |].
  rewrite Hop, Hkey. reflexivity.
Defined.

(** X8. On a primitive field [{ in: [...] }] compiles to the very predicate
    of the bare array, and [{ eq: null }] to that of the bare [null]; a
    membership whose operand is neither an array nor null is refused with
    the TypeError of the runtime, not with an error of the compiler. *)
Theorem redundant_spellings q alias column :
  (forall items,
     addPrimitiveClause q alias column (VObj [("in", VArr items)])
     = addPrimitiveClause q alias column (VArr items))
  /\ addPrimitiveClause q alias column (VObj [("eq", VNull)])
     = addPrimitiveClause q alias column VNull
  /\ (forall v, nullish v = false -> isArray v = false ->
        addPrimitiveClause q alias column (VObj [("in", v)])
        = Throw (TypeError "value.map is not a function")).
Proof.
  split; [| split].
  - intros items. now rewrite addPrimitiveClause_array.
  - reflexivity.
  - intros v Hnull Harray.
    change (addPrimitiveClause q alias column (VObj [("in", v)]))
      with (addPrimitiveOperator q alias column (VStr "in") v).
    unfold addPrimitiveOperator, mapItemsToDb. rewrite Hnull. cbn [isOp String.eqb].
    simpl. now rewrite Harray.
Qed.

(** ** Abbreviations and allocations *)

Lemma split_nonempty sep s : split sep s <> [].
Proof.
  destruct s as [| c s]; simpl; [discriminate |].
  destruct (Ascii.eqb c sep); [discriminate |]. now destruct (split sep s).
Qed.

Lemma split_app sep a b :
  split sep (a +:+ String sep b) = split sep a ++ split sep b.
Proof.
  induction a as [| c a IH].
  - change (split sep (String sep b) = [EmptyString] ++ split sep b).
    simpl. now rewrite Ascii.eqb_refl.
  - change (split sep (String c (a +:+ String sep b))
            = split sep (String c a) ++ split sep b).
    simpl. destruct (Ascii.eqb c sep); [now rewrite IH |].
    rewrite IH. pose proof (split_nonempty sep a) as Ha.
    now destruct (split sep a).
Qed.

Lemma concat_cons (x : string) (l : list string) :
  String.concat "" (x :: l) = x +:+ String.concat "" l.
Proof.
  destruct l as [| y l]; simpl; [| reflexivity].
  induction x as [| c x IH]; [reflexivity |].
  change (String c x = String c (x +:+ "")). now rewrite <- IH.
Qed.

Lemma append_assoc (a b c : string) : (a +:+ b) +:+ c = a +:+ (b +:+ c).
Proof.
  induction a as [| x a IH]; [reflexivity |].
  change (String x ((a +:+ b) +:+ c) = String x (a +:+ (b +:+ c))). now rewrite IH.
Qed.

Lemma concat_app (l1 l2 : list string) :
  String.concat "" (l1 ++ l2) = String.concat "" l1 +:+ String.concat "" l2.
Proof.
  induction l1 as [| x l1 IH]; [reflexivity |].
  change ((x :: l1) ++ l2) with (x :: (l1 ++ l2)).
  now rewrite !concat_cons, IH, append_assoc.
Qed.

Lemma noUnderscore_app a b :
  noUnderscore (a +:+ b) = noUnderscore a && noUnderscore b.
Proof.
  induction a as [| c a IH]; [reflexivity |].
  change (noUnderscore (String c (a +:+ b)) = noUnderscore (String c a) && noUnderscore b).
  simpl. rewrite IH. apply andb_assoc.
Qed.

Lemma split_word w : noUnderscore w = true -> split "_"%char w = [w].
Proof.
  induction w as [| c w IH]; [reflexivity |]. simpl.
  intros H. apply andb_prop in H as [Hc Hw].
  destruct (Ascii.eqb c "_"%char); [discriminate |]. now rewrite IH.
Qed.

Lemma split_noUnderscore s :
  Forall (fun w => noUnderscore w = true) (split "_"%char s).
Proof.
  induction s as [| c s IH]; [repeat constructor |]. simpl.
  destruct (Ascii.eqb c "_"%char) eqn:Hc; [now constructor |].
  destruct (split "_"%char s) as [| w ws]; [repeat constructor; simpl; now rewrite Hc |].
  apply Forall_cons in IH as [Hw Hws]. constructor; [| exact Hws].
  simpl. now rewrite Hc, Hw.
Qed.

Lemma firstLetter_noUnderscore w :
  noUnderscore w = true -> noUnderscore (firstLetter w) = true.
Proof.
  destruct w as [| c w]; [reflexivity |]. simpl. intros H.
  apply andb_prop in H as [-> _]. reflexivity.
Qed.

(** X9. The abbreviation of a table name is put together word by word:
    that of [a_b] is that of [a] followed by that of [b]; that of a word
    without an underscore is its first letter (nothing, for the empty
    word); so an abbreviation holds no underscore. *)
Theorem abbreviation_by_words :
  (forall a b, abbreviation (a +:+ "_" +:+ b) = abbreviation a +:+ abbreviation b)
  /\ (forall w, noUnderscore w = true -> abbreviation w = firstLetter w)
  /\ (forall t, noUnderscore (abbreviation t) = true).
Proof.
  assert (Happ : forall a b,
            abbreviation (a +:+ "_" +:+ b) = abbreviation a +:+ abbreviation b).
  { intros a b. unfold abbreviation.
    change (a +:+ "_" +:+ b) with (a +:+ String "_"%char b).
    now rewrite split_app, map_app, concat_app. }
  split; [exact Happ |]. split.
  - intros w Hw. unfold abbreviation. now rewrite split_word.
  - intros t. unfold abbreviation.
    induction (split_noUnderscore t) as [| w ws Hw _ IH]; [reflexivity |].
    change (map firstLetter (w :: ws)) with (firstLetter w :: map firstLetter ws).
    now rewrite concat_cons, noUnderscore_app, IH, firstLetter_noUnderscore.
Qed.

Lemma abbreviation_by_words_witness :
  abbreviation "author_detail" = "ad" /\ abbreviation "authors" = "a".
Proof.
  destruct abbreviation_by_words as (Happ & Hword & _).
  split.
  - change "author_detail" with ("author" +:+ "_" +:+ "detail").
    rewrite Happ, !Hword by reflexivity. reflexivity.
  - now rewrite Hword.
Defined.

Lemma redundant_spellings_witness :
  addPrimitiveClause Sample.authors0 "a0" (Sample.primitive "age" "age")
    (VObj [("in", VNum 3)])
  = Throw (TypeError "value.map is not a function").
Proof.
  destruct (redundant_spellings Sample.authors0 "a0" (Sample.primitive "age" "age"))
    as (_ & _ & Hin).
  apply Hin; reflexivity.
Defined.

Lemma append_cancel (b x y : string) : b +:+ x = b +:+ y -> x = y.
Proof.
  induction b as [| c b IH]; [trivial |].
  change (String c (b +:+ x) = String c (b +:+ y) -> x = y).
  intros [= H]. now apply IH.
Qed.

(** X10. Allocations in a row for one table give the abbreviation followed
    by consecutive numbers, from the counter the abbreviation had (zero at
    first); they are pairwise distinct, whatever the abbreviation; and they
    leave the counters of the other abbreviations alone. *)
Theorem same_table_aliases n : forall tableName counters,
  let abbrev := abbreviation tableName in
  let start := default 0%nat (counters !! abbrev) in
  fst (getAliases n tableName counters)
  = map (fun i : nat => abbrev +:+ pretty (start + i)%nat) (seq 0 n)
  /\ NoDup (fst (getAliases n tableName counters))
  /\ default 0%nat (snd (getAliases n tableName counters) !! abbrev) = (start + n)%nat
  /\ forall other, other <> abbrev ->
       snd (getAliases n tableName counters) !! other = counters !! other.
Proof.
  assert (Hlist : forall tableName counters,
    fst (getAliases n tableName counters)
    = map (fun i : nat => abbreviation tableName
                          +:+ pretty (default 0%nat (counters !! abbreviation tableName) + i)%nat)
          (seq 0 n)
    /\ default 0%nat (snd (getAliases n tableName counters) !! abbreviation tableName)
       = (default 0%nat (counters !! abbreviation tableName) + n)%nat
    /\ forall other, other <> abbreviation tableName ->
         snd (getAliases n tableName counters) !! other = counters !! other).
  { induction n as [| n IH]; intros tableName counters.
    - split; [reflexivity |]. split; [simpl; lia | reflexivity].
    - cbn [getAliases]. unfold getAlias.
      specialize (IH tableName
                    (<[abbreviation tableName
                       := S (default 0%nat (counters !! abbreviation tableName))]>
                       counters)).
      remember (abbreviation tableName) as abbrev eqn:Habbrev.
      remember (default 0%nat (counters !! abbrev)) as start eqn:Hstart.
      rewrite lookup_insert_eq in IH. cbn [default id] in IH.
      destruct (getAliases n tableName (<[abbrev := S start]> counters))
        as [rest counters'].
      cbn [fst snd] in IH |- *. destruct IH as (-> & Hcount & Hother).
      split; [| split].
      + cbn [seq map]. rewrite Nat.add_0_r. f_equal.
        rewrite <- seq_shift, map_map. apply map_ext. intros i.
        now rewrite Nat.add_succ_r.
      + rewrite Hcount. lia.
      + intros other Hne. rewrite Hother by exact Hne. now apply lookup_insert_ne. }
  intros tableName counters abbrev start.
  destruct (Hlist tableName counters) as (Hfst & Hcount & Hother).
  split; [exact Hfst |]. split; [| split; [exact Hcount | exact Hother]].
  rewrite Hfst. apply NoDup_ListNoDup, Finite.Injective_map_NoDup; [| apply List.seq_NoDup].
  intros i i' Heq. apply append_cancel, (inj pretty) in Heq. lia.
Qed.

(** X11. Allocations for two tables whose abbreviations differ do not
    disturb each other: either order gives the two tables the same aliases
    and leaves the same counters. *)
Theorem getAlias_commute table1 table2 counters :
  abbreviation table1 <> abbreviation table2 ->
  fst (getAlias table1 (snd (getAlias table2 counters)))
  = fst (getAlias table1 counters)
  /\ fst (getAlias table2 (snd (getAlias table1 counters)))
     = fst (getAlias table2 counters)
  /\ snd (getAlias table1 (snd (getAlias table2 counters)))
     = snd (getAlias table2 (snd (getAlias table1 counters))).
Proof.
  intros Hne. unfold getAlias. cbn [fst snd].
  rewrite !lookup_insert_ne by congruence.
  split; [reflexivity |]. split; [reflexivity |].
  now apply insert_insert_ne.
Qed.

Lemma getAlias_commute_witness :
  snd (getAlias "authors" (snd (getAlias "publishers" ∅))) !! "p" = Some 1%nat
  /\ fst (getAlias "publishers" (snd (getAlias "authors" ∅))) = "p0".
Proof.
  destruct (getAlias_commute "authors" "publishers" ∅) as (_ & H2 & H3);
    [vm_compute; discriminate |].
  split; [now rewrite H3 | now rewrite H2].
Defined.

(** ** Invariants of the compiled query *)

Lemma addsOn_refl c q : addsOn c q q.
Proof. now left. Qed.

Lemma addsOn_addWhere q p : addsOn (predicateColumn p) q (addWhere q p).
Proof. right. now exists p. Qed.

Lemma addPrimitiveOperator_addsOn q alias column op v :
  post (addPrimitiveOperator q alias column op v) (addsOn (columnOf alias column) q).
Proof.
  unfold addPrimitiveOperator, mapItemsToDb, orFail, fail,
    whereNotNull, whereNull, whereIn, whereWith, whereOp, whereMember.
  repeat case_match; entry_cases; simpl;
    first [ apply post_Throw
          | apply post_Ok; right; eexists; split; reflexivity ].
Qed.

Lemma addPrimitiveClause_addsOn q alias column clause :
  post (addPrimitiveClause q alias column clause) (addsOn (columnOf alias column) q).
Proof.
  unfold addPrimitiveClause, fail, whereIn, whereNull, where_.
  repeat case_match;
    first [ apply addPrimitiveOperator_addsOn | apply post_Throw
          | apply post_Ok; apply addsOn_refl
          | apply post_Ok; right; eexists; split; reflexivity ].
Qed.

Lemma addForeignKeyClause_addsOn q alias column clause :
  post (addForeignKeyClause q alias column clause)
       (fun r => addsOn (columnOf alias column) q (snd r)).
Proof.
  unfold addForeignKeyClause, whereIn, whereNull, whereNotNull, whereNot, where_.
  repeat case_match;
    first [ apply post_Throw
          | apply post_Ok; apply addsOn_refl
          | apply post_Ok; right; eexists; split; reflexivity ].
Qed.

Lemma setQuery_query st : setQuery st (query st) = st.
Proof. now destruct st. Qed.

Lemma tableAliases_addWhere q p : tableAliases (addWhere q p) = tableAliases q.
Proof. reflexivity. Qed.

Lemma tableAliases_innerJoin q t c1 c2 :
  tableAliases (innerJoin q t c1 c2) = tableAliases q ++ [refAlias t].
Proof. unfold tableAliases. simpl. now rewrite map_app. Qed.

(** A property of the state that each builder call of the loop keeps is
    kept by [addClauses], which also keeps every alias declared. *)
Section Invariant.

Variable getMetadata : string -> EntityMetadata.
Variable J : CompileState -> Prop.

Hypothesis J_where : forall st alias p,
  J st -> In alias (tableAliases (query st)) ->
  colAlias (predicateColumn p) = alias ->
  J (setQuery st (addWhere (query st) p)).

Hypothesis J_order : forall st alias c d,
  J st -> In alias (tableAliases (query st)) ->
  colAlias c = alias ->
  J (setQuery st (Knex.orderBy (query st) c d)).

Hypothesis J_join : forall st alias column other,
  J st -> In alias (tableAliases (query st)) ->
  let j := joinOf getMetadata alias column other (aliases st) in
  J {| aliases := snd (getAlias (tableName (getMetadata other)) (aliases st));
       query := innerJoin (query st) (joinTable j) (joinFirst j) (joinSecond j) |}.

Lemma J_addsOn st alias column q' :
  J st -> In alias (tableAliases (query st)) ->
  addsOn (columnOf alias column) (query st) q' ->
  J (setQuery st q') /\ tableAliases q' = tableAliases (query st).
Proof.
  intros HJ Hin [-> | (p & -> & Hp)].
  - now rewrite setQuery_query.
  - split; [| reflexivity]. apply (J_where st alias p HJ Hin). now rewrite Hp.
Qed.

Lemma addClause_kept recurse meta alias w o key st :
  (forall m a w' o' s, J s -> In a (tableAliases (query s)) ->
     post (recurse m a w' o' s) (kept J s)) ->
  J st -> In alias (tableAliases (query st)) ->
  post (addClause getMetadata recurse meta alias w o key st) (kept J st).
Proof.
  intros Hrec HJ Hin. unfold addClause.
  eapply post_bind with (Q := fun _ => True); [intros ? _; exact I |].
  intros column _.
  eapply post_bind with (Q := fun _ => True); [intros ? _; exact I |].
  intros hasClause _.
  destruct (serde column) as [f | other f].
  - eapply post_bind with (Q := addsOn (columnOf alias column) (query st)).
    + destruct hasClause; [apply addPrimitiveClause_addsOn |].
      apply post_Ok, addsOn_refl.
    + intros q Hq. destruct (J_addsOn st alias column q HJ Hin Hq) as [HJq Htables].
      case_match; apply post_Ok; split.
      * apply (J_order (setQuery st q) alias); [exact HJq | | reflexivity].
        change (In alias (tableAliases q)). rewrite Htables. exact Hin.
      * intros a Ha.
        change (In a (tableAliases q)). rewrite Htables. exact Ha.
      * exact HJq.
      * intros a Ha. change (In a (tableAliases q)). rewrite Htables. exact Ha.
  - eapply post_bind
      with (Q := fun r => addsOn (columnOf alias column) (query st) (snd r)).
    + destruct hasClause; [apply addForeignKeyClause_addsOn |].
      apply post_Ok, addsOn_refl.
    + intros [needsJoin q] Hq. cbn [fst snd] in *.
      destruct (J_addsOn st alias column q HJ Hin Hq) as [HJq Htables].
      case_match.
      * pose proof (J_join (setQuery st q) alias column other HJq) as Hjoin.
        cbn [query setQuery aliases] in Hjoin. rewrite Htables in Hjoin.
        specialize (Hjoin Hin). unfold joinOf in Hjoin. cbn [joinTable joinFirst joinSecond] in Hjoin.
        destruct (getAlias _ _) as [otherAlias counters] eqn:Halias.
        cbn [fst snd] in Hjoin.
        intros st' Hst'. eapply Hrec in Hst'; [| exact Hjoin |].
        -- destruct Hst' as [HJ' Hmono]. split; [exact HJ' |].
           intros a Ha. apply Hmono. cbn [query]. rewrite tableAliases_innerJoin.
           apply in_or_app. left. change (In a (tableAliases q)).
           rewrite Htables. exact Ha.
        -- cbn [query]. rewrite tableAliases_innerJoin. apply in_or_app. right.
           now left.
      * apply post_Ok. split; [exact HJq |].
        intros a Ha. change (In a (tableAliases q)). rewrite Htables. exact Ha.
Qed.

Lemma addClauses_kept fuel : forall meta alias w o st,
  J st -> In alias (tableAliases (query st)) ->
  post (addClauses getMetadata fuel meta alias w o st) (kept J st).
Proof.
  induction fuel as [| fuel IH]; intros meta alias w o st HJ Hin; simpl.
  - apply post_OutOfFuel.
  - apply (forEach_post (kept J st)).
    + intros key s [HJs Hmono] s' Hs'.
      apply addClause_kept in Hs'; [| | exact HJs | now apply Hmono].
      * destruct Hs' as [HJ' Hmono']. split; [exact HJ' |]. auto.
      * intros m a w' o' s0 HJ0 Hin0. now apply IH.
    + split; [exact HJ | trivial].
Qed.

End Invariant.

Lemma chained_snoc js : forall seen j,
  chained seen js ->
  In (colAlias (joinFirst j)) (seen ++ map (fun j' => refAlias (joinTable j')) js) ->
  joinSecond j = {| colAlias := refAlias (joinTable j); colName := "id" |} ->
  chained seen (js ++ [j]).
Proof.
  induction js as [| j' js IH]; intros seen j Hjs Hfirst Hsecond; simpl in *.
  - rewrite app_nil_r in Hfirst. now repeat split.
  - destruct Hjs as (H1 & H2 & H3). repeat split; [exact H1 | exact H2 |].
    apply IH; [exact H3 | | exact Hsecond].
    now rewrite <- app_assoc.
Qed.

Lemma wellScoped_where st alias p :
  wellScoped (query st) -> In alias (tableAliases (query st)) ->
  colAlias (predicateColumn p) = alias ->
  wellScoped (query (setQuery st (addWhere (query st) p))).
Proof.
  intros (Hs & Hw & Ho & Hj) Hin Hp. unfold wellScoped. simpl.
  repeat split; try assumption.
  apply Forall_app. split; [exact Hw |]. constructor; [| constructor].
  now rewrite Hp.
Qed.

Lemma wellScoped_order st alias c d :
  wellScoped (query st) -> In alias (tableAliases (query st)) ->
  colAlias c = alias ->
  wellScoped (query (setQuery st (Knex.orderBy (query st) c d))).
Proof.
  intros (Hs & Hw & Ho & Hj) Hin Hc. unfold wellScoped. simpl.
  repeat split; try assumption.
  apply Forall_app. split; [exact Ho |]. constructor; [| constructor].
  simpl. now rewrite Hc.
Qed.

Lemma wellScoped_join getMetadata st alias column other :
  wellScoped (query st) -> In alias (tableAliases (query st)) ->
  let j := joinOf getMetadata alias column other (aliases st) in
  wellScoped
    (query {| aliases := snd (getAlias (tableName (getMetadata other)) (aliases st));
              query := innerJoin (query st) (joinTable j) (joinFirst j) (joinSecond j) |}).
Proof.
  intros (Hs & Hw & Ho & Hj) Hin j. unfold wellScoped. cbn [query].
  rewrite tableAliases_innerJoin.
  assert (Hmono : forall a, In a (tableAliases (query st)) ->
            In a (tableAliases (query st) ++ [refAlias (joinTable j)])).
  { intros a Ha. apply in_or_app. now left. }
  repeat split.
  - eapply Forall_impl; [exact Hs |]. intros c Hc. apply Hmono. exact Hc.
  - eapply Forall_impl; [exact Hw |]. intros p Hp. apply Hmono. exact Hp.
  - eapply Forall_impl; [exact Ho |]. intros t Ht. apply Hmono. exact Ht.
  - simpl. apply chained_snoc; [exact Hj | exact Hin | reflexivity].
Qed.

(** X12. In every compiled query each column -- selected, filtered on,
    sorted by or joined on -- is under an alias the query declares; each
    join compares a column of a table named before it with the [id] of the
    table it brings in; and the columns selected are those of the base
    table alone, however many tables are joined. *)
Theorem columns_in_scope getMetadata entityLimit fuel type filter q :
  buildQuery getMetadata entityLimit fuel type filter = Ok q ->
  wellScoped q
  /\ selects q = [{| colAlias := refAlias (from q); colName := "*" |}].
Proof.
  rewrite buildQuery_run.
  destruct (addClauses _ _ _ _ _ _ _) as [st | e |] eqn:Hst; try discriminate.
  intros [= <-].
  pose proof (addClauses_extends _ _ _ _ _ _ _ _ Hst) as (Hsel & Hfrom & _).
  apply (addClauses_kept getMetadata (fun s => wellScoped (query s))) in Hst.
  - destruct Hst as [(Hs & Hw & Ho & Hj) Hmono].
    destruct (paginate_wheres entityLimit filter (baseAlias getMetadata type) (query st))
      as (Ew & Ej & Ef & Es & Eo).
    assert (Et : tableAliases (paginate entityLimit filter (baseAlias getMetadata type)
                                 (query st)) = tableAliases (query st)).
    { unfold tableAliases. now rewrite Ej, Ef. }
    split.
    + unfold wellScoped. rewrite Et, Ew, Ej, Ef, Es, Eo.
      repeat split; try assumption.
      apply Forall_app. split; [exact Ho |]. constructor; [| constructor].
      simpl. apply Hmono. now left.
    + rewrite Es, Ef, Hsel, Hfrom. reflexivity.
  - intros; now apply wellScoped_where with alias.
  - intros; now apply wellScoped_order with alias.
  - intros; now apply wellScoped_join.
  - unfold wellScoped. simpl. repeat split; repeat constructor.
  - now left.
Qed.

Lemma columns_in_scope_witness :
  exists q,
    buildQuery Sample.catalog Sample.defaultLimit 2 "Author" Sample.olderAcmeAuthors = Ok q
    /\ wellScoped q /\ length (joins q) = 1%nat.
Proof.
  eexists. split; [vm_compute; reflexivity |].
  split; [| reflexivity].
  exact (proj1 (columns_in_scope Sample.catalog Sample.defaultLimit 2 "Author"
                  Sample.olderAcmeAuthors _ ltac:(vm_compute; reflexivity))).
Defined.

Lemma numbered_snoc refs : forall seen t,
  numbered seen refs ->
  refAlias t
  = refAbbreviation t
    +:+ pretty (count_occ String.string_dec (seen ++ map refAbbreviation refs)
                  (refAbbreviation t)) ->
  numbered seen (refs ++ [t]).
Proof.
  induction refs as [| r refs IH]; intros seen t Hrefs Ht; simpl in *.
  - rewrite app_nil_r in Ht. now split.
  - destruct Hrefs as [Hr Hrest]. split; [exact Hr |].
    apply IH; [exact Hrest |]. now rewrite <- app_assoc.
Qed.

Lemma tableRefs_innerJoin q t c1 c2 :
  tableRefs (innerJoin q t c1 c2) = tableRefs q ++ [t].
Proof. unfold tableRefs. simpl. now rewrite map_app. Qed.

Lemma aliasesNumbered_join getMetadata st alias column other :
  aliasesNumbered getMetadata st ->
  let j := joinOf getMetadata alias column other (aliases st) in
  aliasesNumbered getMetadata
    {| aliases := snd (getAlias (tableName (getMetadata other)) (aliases st));
       query := innerJoin (query st) (joinTable j) (joinFirst j) (joinSecond j) |}.
Proof.
  intros (Hnum & Hcount & Hcat) j. unfold aliasesNumbered. cbn [query aliases].
  rewrite tableRefs_innerJoin. unfold j, joinOf, getAlias. cbn [fst snd joinTable].
  set (abbrev := abbreviation (tableName (getMetadata other))).
  split; [| split].
  - apply numbered_snoc; [exact Hnum |].
    unfold refAbbreviation at 1 2. cbn [refAlias refTable app]. fold abbrev.
    now rewrite Hcount.
  - intros b. rewrite map_app, count_occ_app. cbn [map count_occ].
    unfold refAbbreviation at 2. cbn [refTable]. fold abbrev.
    destruct (String.string_dec abbrev b) as [<- | Hne].
    + rewrite lookup_insert_eq. cbn [default id]. rewrite Hcount. lia.
    + rewrite lookup_insert_ne by exact Hne. rewrite Hcount. lia.
  - apply Forall_app. split; [exact Hcat |]. constructor; [| constructor].
    now exists other.
Qed.

(** X13. In every compiled query each table is a table of the catalog,
    and its alias is the abbreviation of its name followed by the number
    of tables with the same abbreviation that the query names before it:
    the aliases of one abbreviation are numbered 0, 1, 2, ... in the order
    of the joins. *)
Theorem aliases_numbered getMetadata entityLimit fuel type filter q :
  buildQuery getMetadata entityLimit fuel type filter = Ok q ->
  numbered [] (tableRefs q)
  /\ Forall (fun t => exists type', refTable t = tableName (getMetadata type'))
       (tableRefs q).
Proof.
  rewrite buildQuery_run.
  destruct (addClauses _ _ _ _ _ _ _) as [st | e |] eqn:Hst; try discriminate.
  intros [= <-].
  apply (addClauses_kept getMetadata (aliasesNumbered getMetadata)) in Hst.
  - destruct Hst as [(Hnum & _ & Hcat) _].
    destruct (paginate_wheres entityLimit filter (baseAlias getMetadata type) (query st))
      as (_ & Ej & Ef & _).
    unfold tableRefs. rewrite Ej, Ef. now split.
  - intros st0 alias p HJ _ _. exact HJ.
  - intros st0 alias c d HJ _ _. exact HJ.
  - intros st0 alias column other HJ _. now apply aliasesNumbered_join.
  - unfold aliasesNumbered, baseState, baseAlias, tableRefs. cbn [query aliases from joins
      selectFrom map numbered count_occ app refAlias]. unfold refAbbreviation. cbn [refTable].
    split; [now split |]. split.
    + intros b. cbn [map count_occ]. cbn [refTable].
      destruct (String.string_dec (abbreviation (tableName (getMetadata type))) b)
        as [<- | Hne].
      * now rewrite lookup_insert_eq.
      * rewrite lookup_insert_ne by exact Hne. now rewrite lookup_empty.
    + constructor; [| constructor]. now exists type.
  - now left.
Qed.

Lemma aliases_numbered_witness :
  exists q,
    buildQuery Sample.catalog Sample.defaultLimit 3 "Author"
      mentorOfMentor = Ok q
    /\ numbered [] (tableRefs q)
    /\ map refAlias (tableRefs q) = ["a0"; "a1"; "a2"].
Proof.
  eexists. split; [vm_compute; reflexivity |].
  split; [| reflexivity].
  exact (proj1 (aliases_numbered Sample.catalog Sample.defaultLimit 3 "Author"
                  mentorOfMentor _ ltac:(vm_compute; reflexivity))).
Defined.

(** X14. When no abbreviation of the catalog ends in a digit, the aliases
    of every compiled query are pairwise distinct: no join reuses the alias
    of the base table or of another join, even when one table is joined
    many times. *)
Theorem distinct_aliases getMetadata entityLimit fuel type filter q :
  digitFree getMetadata ->
  buildQuery getMetadata entityLimit fuel type filter = Ok q ->
  NoDup (tableAliases q)
  /\ Forall (fun j => refAlias (joinTable j) <> refAlias (from q)) (joins q)
  /\ length (tableAliases q) = S (length (joins q)).
Proof.
  intros Hfree Hq.
  destruct (aliases_distinct getMetadata entityLimit Hfree fuel type filter q Hq)
    as [Hnodup Hlen].
  split; [exact Hnodup |]. split; [| exact Hlen].
  unfold tableAliases in Hnodup. apply NoDup_cons in Hnodup as [Hnotin _].
  apply Forall_forall. intros j Hj Heq. apply Hnotin.
  rewrite <- Heq. apply list_elem_of_In, in_map_iff.
  exists j. split; [reflexivity | now apply list_elem_of_In].
Qed.

Lemma distinct_aliases_witness :
  exists q,
    buildQuery Sample.library Sample.defaultLimit 3 "Author"
      mentorOfMentor = Ok q
    /\ NoDup (tableAliases q) /\ length (joins q) = 2%nat.
Proof.
  eexists. split; [vm_compute; reflexivity |].
  split; [| reflexivity].
  exact (proj1 (distinct_aliases Sample.library Sample.defaultLimit 3 "Author"
                  mentorOfMentor _ library_digitFree ltac:(vm_compute; reflexivity))).
Defined.

(** X15. Compilation terminates, and its recursion is as deep as the
    filter is nested: in a catalog where no foreign-key field is named by
    an array index, a budget above the nesting depth of the where-clause and
    of the order-by is never used up, and any larger budget gives the same
    query or the same error. *)
Theorem budget_stabilises getMetadata entityLimit fuel fuel' type filter :
  noIndexForeignKeys getMetadata ->
  (Nat.max (depth (where_of filter)) (depth (orderBy_of filter)) < fuel)%nat ->
  (fuel <= fuel')%nat ->
  completes (buildQuery getMetadata entityLimit fuel type filter)
  /\ buildQuery getMetadata entityLimit fuel' type filter
     = buildQuery getMetadata entityLimit fuel type filter.
Proof.
  intros Hindex Hdepth Hle.
  pose proof (buildQuery_completes getMetadata entityLimit Hindex fuel type filter Hdepth)
    as Hdone.
  split; [exact Hdone |].
  destruct (buildQuery_mono getMetadata entityLimit fuel fuel' type filter Hle)
    as [Hout | Heq]; [contradiction | now symmetry].
Qed.

Lemma budget_stabilises_witness :
  buildQuery Sample.library Sample.defaultLimit 50 "Author" Sample.olderAcmeAuthors
  = buildQuery Sample.library Sample.defaultLimit 3 "Author" Sample.olderAcmeAuthors.
Proof.
  apply (budget_stabilises Sample.library Sample.defaultLimit 3 50 "Author"
           Sample.olderAcmeAuthors library_noIndexForeignKeys);
    [vm_compute | ]; lia.
Defined.

(** ** A recursion that does not end *)

Lemma entryOf_char c : entryOf (VStr (String c EmptyString)) "0" = VStr (String c EmptyString).
Proof. reflexivity. Qed.

(** X16. The recursion need not end when the order-by is a string instead
    of an object: a string has its indices for keys and its characters for
    entries, so on an entity whose foreign-key field [0] points back to the
    entity, a one-character order-by joins the table again and again, and
    every budget is used up. *)
Theorem string_order_recurses getMetadata entityLimit type column f c l off :
  findColumn (getMetadata type) "0" = Some column ->
  serde column = ForeignKeySerde type f ->
  forall fuel,
    buildQuery getMetadata entityLimit fuel type
      {| where_of := VObj []; orderBy_of := VStr (String c EmptyString);
         limit_of := l; offset_of := off |} = OutOfFuel.
Proof.
  intros Hcol Hserde.
  assert (Hloop : forall fuel alias w st,
            (w = VObj [] \/ w = VUndefined) ->
            addClauses getMetadata fuel (getMetadata type) alias w
              (VStr (String c EmptyString)) st = OutOfFuel).
  { induction fuel as [| fuel IH]; intros alias w st Hw; [reflexivity |].
    cbn [addClauses].
    assert (Hkeys : clauseKeys w (VStr (String c EmptyString)) = ["0"]).
    { destruct Hw as [-> | ->]; reflexivity. }
    rewrite Hkeys. cbn [forEach].
    rewrite (addClause_foreignKey _ _ _ _ _ _ _ _ column type f Hcol Hserde)
      by (destruct Hw as [-> | ->]; eauto).
    assert (Hin : propIn "0" w = false) by (destruct Hw as [-> | ->]; reflexivity).
    rewrite Hin. cbn [bind fst snd orb]. rewrite entryOf_char. cbn [truthy].
    change (negb (String.eqb (String c EmptyString) "")) with true. cbv iota.
    rewrite IH by now right. reflexivity. }
  intros fuel. rewrite buildQuery_run. cbn [where_of orderBy_of].
  rewrite Hloop by now left. reflexivity.
Qed.

Lemma string_order_recurses_witness :
  buildQuery Chain.catalog Sample.defaultLimit 1000 "Node"
    (Sample.filterOf (VObj []) (VStr "A") None None) = OutOfFuel.
Proof.
  exact (string_order_recurses Chain.catalog Sample.defaultLimit "Node"
           (Sample.foreignKey "0" "next_id" "Node") Sample.keep "A"%char None None
           eq_refl eq_refl 1000%nat).
Defined.

(** ** Filters without a predicate *)

(** X17. A filter whose where-clause and order-by name no field -- each
    empty, or absent -- compiles, whatever the entity, to the bare query:
    the columns of the base table, no join, no predicate, sorted by the
    [id] of the base table alone. *)
Theorem empty_filter getMetadata entityLimit fuel type filter :
  objectKeys (where_of filter) = [] \/ truthy (where_of filter) = false ->
  objectKeys (orderBy_of filter) = [] \/ truthy (orderBy_of filter) = false ->
  exists q,
    buildQuery getMetadata entityLimit (S fuel) type filter = Ok q
    /\ from q = {| refTable := tableName (getMetadata type);
                   refAlias := baseAlias getMetadata type |}
    /\ joins q = [] /\ wheres q = []
    /\ orders q = [baseIdTerm q].
Proof.
  intros Hw Ho. rewrite buildQuery_run. cbn [addClauses].
  assert (Hkeys : clauseKeys (where_of filter) (orderBy_of filter) = []).
  { unfold clauseKeys.
    destruct Hw as [-> | ->], Ho as [-> | ->]; repeat case_match; reflexivity. }
  rewrite Hkeys. cbn [forEach bind].
  eexists. split; [reflexivity |].
  destruct (paginate_wheres entityLimit filter (baseAlias getMetadata type)
              (query (baseState getMetadata type))) as (Ew & Ej & Ef & _ & Eo).
  unfold baseIdTerm. rewrite Ew, Ej, Ef, Eo. repeat split.
Qed.

Lemma empty_filter_witness :
  exists q,
    buildQuery Sample.catalog Sample.defaultLimit 1 "Publisher"
      (Sample.filterOf (VObj []) VUndefined None None) = Ok q
    /\ joins q = [] /\ wheres q = [] /\ length (orders q) = 1%nat.
Proof.
  destruct (empty_filter Sample.catalog Sample.defaultLimit 0 "Publisher"
              (Sample.filterOf (VObj []) VUndefined None None)
              (or_introl eq_refl) (or_intror eq_refl))
    as (q & Hq & _ & Hj & Hw & Ho).
  exists q. split; [exact Hq |]. split; [exact Hj |]. split; [exact Hw |].
  now rewrite Ho.
Defined.

(** X18. An order-by on a primitive field adds one order term, on the
    column of the field, before the [id] of the base table, and passes the
    direction on as it is given, unchecked; an entry that is falsy
    ([undefined], [null], the empty string) adds none.  Neither adds a
    predicate or a join. *)
Theorem order_by_primitive getMetadata entityLimit fuel type key column f d l off :
  findColumn (getMetadata type) key = Some column ->
  serde column = PrimitiveSerde f ->
  exists q,
    buildQuery getMetadata entityLimit (S fuel) type
      {| where_of := VObj []; orderBy_of := VObj [(key, d)];
         limit_of := l; offset_of := off |} = Ok q
    /\ joins q = [] /\ wheres q = []
    /\ orders q
       = (if truthy d
          then [{| orderColumn := columnOf (baseAlias getMetadata type) column;
                   orderDirection := d |}]
          else [])
         ++ [baseIdTerm q].
Proof.
  intros Hcol Hserde.
  rewrite buildQuery_run. cbn [where_of orderBy_of addClauses].
  unfold clauseKeys. cbn [truthy objectKeys map fst app forEach].
  rewrite (addClause_primitive _ _ _ _ _ _ _ _ column f Hcol Hserde) by eauto.
  cbn [propIn assoc]. rewrite bool_decide_false by (intros [x Hx]; discriminate).
  cbn [bind]. rewrite entryOf_single.
  eexists. split; [reflexivity |].
  match goal with
  | |- joins (paginate ?e ?f ?a ?q0) = _ /\ _ =>
      destruct (paginate_wheres e f a q0) as (Ew & Ej & Ef & _ & Eo);
      unfold baseIdTerm; rewrite Ew, Ej, Ef, Eo
  end.
  destruct (truthy d); repeat split.
Qed.

Lemma order_by_primitive_witness :
  exists q,
    buildQuery Sample.catalog Sample.defaultLimit 1 "Author"
      (Sample.filterOf (VObj []) (VObj [("age", VStr "sideways")]) None None) = Ok q
    /\ map orderDirection (orders q) = [VStr "sideways"; VUndefined].
Proof.
  destruct (order_by_primitive Sample.catalog Sample.defaultLimit 0 "Author" "age"
              (Sample.primitive "age" "age") Sample.keep (VStr "sideways") None None
              eq_refl eq_refl) as (q & Hq & _ & _ & Ho).
  exists q. split; [exact Hq |]. now rewrite Ho.
Defined.

(** * Foreign-key clauses that produce no join *)

(** A clause for which the clause logic adds a predicate and asks for no
    join produces none in the loop and in the compiled query either. *)
Lemma addsKeyPredicate_intro getMetadata column other f clause P :
  serde column = ForeignKeySerde other f ->
  (forall q alias,
     addForeignKeyClause q alias column clause
     = Ok (false, addWhere q (P (columnOf alias column)))) ->
  addsKeyPredicate getMetadata column other clause P.
Proof.
  intros Hserde Hfk. split; [exact Hfk |]. split.
  - intros recurse meta alias fields o key st Hcol Hkey.
    rewrite (addClause_foreignKey _ _ _ _ _ _ _ _ column other f Hcol Hserde) by eauto.
    assert (Hin : propIn key (VObj fields) = true).
    { simpl. rewrite Hkey. now apply bool_decide_eq_true. }
    assert (Hget : getProp (VObj fields) key = clause) by (simpl; now rewrite Hkey).
    rewrite Hin, Hget, Hfk. cbn [bind fst snd orb]. unfold stepWithout.
    destruct (truthy (entryOf o key)); reflexivity.
  - intros entityLimit fuel type key l off Hcol.
    exact (buildQuery_single_foreignKey getMetadata entityLimit fuel type key clause
             column other f (fun alias => P (columnOf alias column)) l off
             Hcol Hserde Hfk).
Qed.

(** A clause that the clause logic refuses is refused by the loop and by
    the compilation. *)
Lemma refusedWith_intro getMetadata column other f clause e :
  serde column = ForeignKeySerde other f ->
  (forall q alias, addForeignKeyClause q alias column clause = Throw e) ->
  refusedWith getMetadata column clause e.
Proof.
  intros Hserde Hfk. split; [exact Hfk |].
  assert (Hstep : forall recurse meta alias fields o key st,
            findColumn meta key = Some column ->
            assoc key fields = Some clause ->
            addClause getMetadata recurse meta alias (VObj fields) o key st = Throw e).
  { intros recurse meta alias fields o key st Hcol Hkey.
    rewrite (addClause_foreignKey _ _ _ _ _ _ _ _ column other f Hcol Hserde) by eauto.
    assert (Hin : propIn key (VObj fields) = true).
    { simpl. rewrite Hkey. now apply bool_decide_eq_true. }
    assert (Hget : getProp (VObj fields) key = clause) by (simpl; now rewrite Hkey).
    now rewrite Hin, Hget, Hfk. }
  split; [exact Hstep |].
  intros entityLimit fuel type key l off Hcol.
  rewrite buildQuery_run. cbn [where_of orderBy_of addClauses].
  unfold clauseKeys. cbn [truthy objectKeys map fst app forEach].
  rewrite (Hstep _ _ _ _ _ _ _ Hcol (assoc_single key clause)). reflexivity.
Qed.

(** C3. A clause on a foreign-key field that is an entity, an identifier,
    an array of identifiers, [{ id: v }] or [{ id: [...] }] adds one
    predicate on the key column under the current alias -- the equality
    with the stored form of the entity, of the identifier or of [v] (with
    [-1] for an entity that has no identifier), or the membership in the
    stored forms of the elements of the array -- and produces no join: the
    clause logic answers that none is needed, the step of the loop joins
    only for an order-by that names the field too, and a filter of that one
    field compiles to a query with that one predicate and without a join. *)
Theorem key_only_filter getMetadata column other f :
  serde column = ForeignKeySerde other f ->
  (forall id own,
     addsKeyPredicate getMetadata column other (VEntity (Some id) own)
       (fun c => Where c (f (VEntity (Some id) own))))
  /\ (forall own,
        addsKeyPredicate getMetadata column other (VEntity None own)
          (fun c => Where c (VNum (-1))))
  /\ (forall id,
        addsKeyPredicate getMetadata column other (VStr id)
          (fun c => Where c (f (VStr id))))
  /\ (forall ids,
        addsKeyPredicate getMetadata column other (VArr ids)
          (fun c => WhereIn c (map f ids)))
  /\ (forall v, isArray v = false ->
        addsKeyPredicate getMetadata column other (VObj [("id", v)])
          (fun c => Where c (f v)))
  /\ (forall ids,
        addsKeyPredicate getMetadata column other (VObj [("id", VArr ids)])
          (fun c => WhereIn c (map f ids))).
Proof.
  intros Hserde.
  assert (Hdb : mapToDb (serde column) = f) by now rewrite Hserde.
  repeat apply conj;
    try (intros; apply (addsKeyPredicate_intro getMetadata column other f);
         [exact Hserde |]; intros q alias; unfold addForeignKeyClause; rewrite ?Hdb).
  - reflexivity.
  - reflexivity.
  - reflexivity.
  - reflexivity.
  - simpl. now rewrite H.
  - reflexivity.
Qed.

Lemma key_only_filter_witness :
  exists q,
    buildQuery Sample.catalog Sample.defaultLimit 1 "Author"
      (Sample.filterOf (VObj [("publisher", VObj [("id", VStr "p:1")])])
         VUndefined None None) = Ok q
    /\ joins q = []
    /\ wheres q = [Where {| colAlias := "a0"; colName := "publisher_id" |} (VStr "p:1")].
Proof.
  destruct (key_only_filter Sample.catalog
              (Sample.foreignKey "publisher" "publisher_id" "Publisher")
              "Publisher" Sample.keep eq_refl)
    as (_ & _ & _ & _ & Hid & _).
  destruct (Hid (VStr "p:1") eq_refl) as (_ & _ & Hbuild).
  destruct (Hbuild Sample.defaultLimit 0%nat "Author" "publisher" None None eq_refl)
    as (q & Hq & Hjoins & Hwheres).
  exists q. split; [exact Hq |]. split; [exact Hjoins |].
  rewrite Hwheres. reflexivity.
Defined.

(** C5. A clause [{ ne: v }] on a foreign-key field adds the one predicate
    "is not null" on the key column when [v] is [null] or absent, and the
    one predicate "is not the stored form of [v]" on the key column when
    [v] is an identifier; in both cases it produces no join: the clause
    logic answers that none is needed, the step of the loop joins only for
    an order-by that names the field too, and a filter of that one field
    compiles to a query with that one predicate and without a join.  For
    every other [v] the clause logic, the step of the loop and the
    compilation raise the unsupported-operation error. *)
Theorem foreign_key_ne getMetadata column other f :
  serde column = ForeignKeySerde other f ->
  (forall v, nullish v = true ->
     addsKeyPredicate getMetadata column other (VObj [("ne", v)])
       (fun c => WhereNotNull c))
  /\ (forall id,
        addsKeyPredicate getMetadata column other (VObj [("ne", VStr id)])
          (fun c => WhereNot c (f (VStr id))))
  /\ (forall v, nullish v = false -> typeofString v = false ->
        refusedWith getMetadata column (VObj [("ne", v)]) NotImplemented).
Proof.
  intros Hserde.
  assert (Hcases : forall q alias v,
            addForeignKeyClause q alias column (VObj [("ne", v)])
            = if nullish v
              then Ok (false, whereNotNull q (columnOf alias column))
              else if typeofString v
                   then Ok (false, whereNot q (columnOf alias column) (f v))
                   else Throw NotImplemented).
  { intros q alias v. unfold addForeignKeyClause. rewrite Hserde. reflexivity. }
  split; [| split].
  - intros v Hv. apply (addsKeyPredicate_intro getMetadata column other f); [exact Hserde |].
    intros q alias. now rewrite Hcases, Hv.
  - intros id. apply (addsKeyPredicate_intro getMetadata column other f); [exact Hserde |].
    intros q alias. now rewrite Hcases.
  - intros v Hv Hs. apply (refusedWith_intro getMetadata column other f); [exact Hserde |].
    intros q alias. now rewrite Hcases, Hv, Hs.
Qed.

Lemma foreign_key_ne_witness :
  buildQuery Sample.catalog Sample.defaultLimit 1 "Author"
    (Sample.filterOf (VObj [("publisher", VObj [("ne", VNum 7)])]) VUndefined None None)
  = Throw NotImplemented
  /\ exists q,
       buildQuery Sample.catalog Sample.defaultLimit 1 "Author"
         (Sample.filterOf (VObj [("publisher", VObj [("ne", VStr "p:1")])])
            VUndefined None None) = Ok q
       /\ joins q = []
       /\ wheres q = [WhereNot {| colAlias := "a0"; colName := "publisher_id" |}
                        (VStr "p:1")].
Proof.
  destruct (foreign_key_ne Sample.catalog
              (Sample.foreignKey "publisher" "publisher_id" "Publisher")
              "Publisher" Sample.keep eq_refl)
    as (_ & Hid & Hother).
  split.
  - destruct (Hother (VNum 7) eq_refl eq_refl) as (_ & _ & Hbuild).
    exact (Hbuild Sample.defaultLimit 0%nat "Author" "publisher" None None eq_refl).
  - destruct (Hid "p:1") as (_ & _ & Hbuild).
    destruct (Hbuild Sample.defaultLimit 0%nat "Author" "publisher" None None eq_refl)
      as (q & Hq & Hjoins & Hwheres).
    exists q. split; [exact Hq |]. split; [exact Hjoins |].
    rewrite Hwheres. reflexivity.
Defined.

(** * Unknown fields, at any scope *)

(** A nested filter on a foreign-key field enters the scope of the related
    entity with that filter as its where-clause. *)
Lemma entersScope_where getMetadata meta fields o via column other f fields2 :
  findColumn meta via = Some column ->
  serde column = ForeignKeySerde other f ->
  assoc via fields = Some (VObj fields2) ->
  map fst fields2 <> ["id"] -> map fst fields2 <> ["ne"] ->
  entersScope getMetadata meta (VObj fields) o via
    (getMetadata other) (VObj fields2)
    (if truthy (entryOf o via) then entryOf o via else VUndefined).
Proof.
  intros Hcol Hserde Hvia Hid Hne recurse alias st.
  rewrite (addClause_foreignKey _ _ _ _ _ _ _ _ column other f Hcol Hserde) by eauto.
  assert (Hin : propIn via (VObj fields) = true).
  { simpl. rewrite Hvia. now apply bool_decide_eq_true. }
  assert (Hget : getProp (VObj fields) via = VObj fields2) by (simpl; now rewrite Hvia).
  assert (Hentry : entryOf (VObj fields) via = VObj fields2) by exact Hget.
  rewrite Hin, Hget, addForeignKeyClause_nested by assumption.
  cbn [bind fst snd orb]. rewrite Hentry. eexists _, _. reflexivity.
Qed.

(** An order-by on a foreign-key field that the where-clause does not name
    enters the scope of the related entity with no where-clause. *)
Lemma entersScope_order getMetadata meta w o via column other f :
  findColumn meta via = Some column ->
  serde column = ForeignKeySerde other f ->
  (exists fields, w = VObj fields) \/ truthy w = false ->
  propIn via w = false ->
  truthy (entryOf o via) = true ->
  entersScope getMetadata meta w o via (getMetadata other) VUndefined (entryOf o via).
Proof.
  intros Hcol Hserde Hw Hin Horder recurse alias st.
  rewrite (addClause_foreignKey _ _ _ _ _ _ _ _ column other f Hcol Hserde) by exact Hw.
  rewrite Hin. cbn [bind fst snd orb]. rewrite Horder. eexists _, _. reflexivity.
Qed.

(** No run of the loop on a scope with an unknown field, in it or below
    it, returns. *)
Lemma unknownAt_never_Ok getMetadata meta w o key :
  unknownAt getMetadata meta w o key ->
  forall fuel alias st st', addClauses getMetadata fuel meta alias w o st <> Ok st'.
Proof.
  induction 1 as [meta w o key Hin Hnone | meta w o via meta' w' o' key Hin Henter _ IH];
    intros [| fuel] alias st st'; simpl; try discriminate.
  - apply (forEach_never_Ok _ _ key Hin). intros s s'.
    unfold addClause. now rewrite Hnone.
  - apply (forEach_never_Ok _ _ via Hin). intros s s'.
    destruct (Henter (addClauses getMetadata fuel) alias s) as (alias' & s1 & ->).
    apply IH.
Qed.

(** C8. A key of the where-clause or of the order-by that names no column of
    the entity of its scope makes the compilation fail, at the root and at
    any depth below it.  The step of the loop on such a key raises the
    unknown-field error before anything else, whatever the state, the alias
    and the scope; the loop of the scope raises it as soon as it reaches the
    key; no run of the loop, and no compilation, of a scope that has such a
    key in it or in a scope entered from it returns a query; an unknown
    key one level down, in the nested filter or in the nested order-by of a
    foreign-key field, makes the compilation raise the unknown-field error
    for that key; and an error raised in a nested scope is raised, as it
    is, by the loop of the enclosing scope once it reaches the field that
    enters the nested scope, and an error raised by the loop of the root
    scope is raised by the compilation. *)
Theorem unknown_field getMetadata :
  (forall meta key, findColumn meta key = None ->
     forall recurse alias w o st,
       addClause getMetadata recurse meta alias w o key st = Throw (NotFound key))
  /\ (forall meta key, findColumn meta key = None ->
      forall fuel alias w o st before after st1,
        clauseKeys w o = before ++ key :: after ->
        forEach before (addClause getMetadata (addClauses getMetadata fuel) meta alias w o) st
        = Ok st1 ->
        addClauses getMetadata (S fuel) meta alias w o st = Throw (NotFound key))
  /\ (forall meta w o key, unknownAt getMetadata meta w o key ->
      forall fuel alias st st',
        addClauses getMetadata fuel meta alias w o st <> Ok st')
  /\ (forall entityLimit fuel type filter key q,
        unknownAt getMetadata (getMetadata type) (where_of filter) (orderBy_of filter) key ->
        buildQuery getMetadata entityLimit fuel type filter <> Ok q)
  /\ (forall entityLimit fuel type via column other f key v l off,
        findColumn (getMetadata type) via = Some column ->
        serde column = ForeignKeySerde other f ->
        key <> "id" -> key <> "ne" ->
        findColumn (getMetadata other) key = None ->
        buildQuery getMetadata entityLimit (S (S fuel)) type
          {| where_of := VObj [(via, VObj [(key, v)])]; orderBy_of := VUndefined;
             limit_of := l; offset_of := off |}
        = Throw (NotFound key))
  /\ (forall entityLimit fuel type via column other f key d l off,
        findColumn (getMetadata type) via = Some column ->
        serde column = ForeignKeySerde other f ->
        findColumn (getMetadata other) key = None ->
        buildQuery getMetadata entityLimit (S (S fuel)) type
          {| where_of := VObj []; orderBy_of := VObj [(via, VObj [(key, d)])];
             limit_of := l; offset_of := off |}
        = Throw (NotFound key))
  /\ (forall meta w o via meta' w' o' e fuel,
        entersScope getMetadata meta w o via meta' w' o' ->
        (forall alias st, addClauses getMetadata fuel meta' alias w' o' st = Throw e) ->
        forall alias st before after st1,
          clauseKeys w o = before ++ via :: after ->
          forEach before (addClause getMetadata (addClauses getMetadata fuel) meta alias w o) st
          = Ok st1 ->
          addClauses getMetadata (S fuel) meta alias w o st = Throw e)
  /\ (forall entityLimit fuel type filter e,
        addClauses getMetadata fuel (getMetadata type) (baseAlias getMetadata type)
          (where_of filter) (orderBy_of filter) (baseState getMetadata type) = Throw e ->
        buildQuery getMetadata entityLimit fuel type filter = Throw e).
Proof.
  assert (Hstep : forall meta key, findColumn meta key = None ->
            forall recurse alias w o st,
              addClause getMetadata recurse meta alias w o key st = Throw (NotFound key)).
  { intros meta key Hnone recurse alias w o st. unfold addClause. now rewrite Hnone. }
  split; [exact Hstep |]. split; [| split; [| split; [| split; [| split; [| split]]]]].
  - intros meta key Hnone fuel alias w o st before after st1 Hkeys Hbefore. simpl.
    rewrite Hkeys, forEach_app, Hbefore. simpl. now rewrite Hstep.
  - intros meta w o key. apply unknownAt_never_Ok.
  - intros entityLimit fuel type filter key q Hunknown. rewrite buildQuery_run.
    destruct (addClauses _ _ _ _ _ _ _) as [st | e |] eqn:Hst; simpl; try discriminate.
    now apply (unknownAt_never_Ok _ _ _ _ _ Hunknown) in Hst.
  - intros entityLimit fuel type via column other f key v l off Hcol Hserde Hid Hne Hnone.
    rewrite buildQuery_run. cbn [where_of orderBy_of].
    change (addClauses getMetadata (S (S fuel))) with
      (fun meta alias w o st =>
         forEach (clauseKeys w o)
           (addClause getMetadata (addClauses getMetadata (S fuel)) meta alias w o) st).
    cbv beta. unfold clauseKeys at 1. cbn [truthy objectKeys map fst app forEach].
    rewrite (addClause_foreignKey _ _ _ _ _ _ _ _ column other f Hcol Hserde) by eauto.
    rewrite propIn_single, getProp_head.
    rewrite addForeignKeyClause_nested by (now apply map_fst_single).
    cbn [bind fst snd orb]. rewrite entryOf_single.
    cbn [addClauses]. unfold clauseKeys. cbn [truthy objectKeys map fst app forEach].
    rewrite (Hstep _ _ Hnone). reflexivity.
  - intros entityLimit fuel type via column other f key d l off Hcol Hserde Hnone.
    rewrite buildQuery_run. cbn [where_of orderBy_of].
    change (addClauses getMetadata (S (S fuel))) with
      (fun meta alias w o st =>
         forEach (clauseKeys w o)
           (addClause getMetadata (addClauses getMetadata (S fuel)) meta alias w o) st).
    cbv beta. unfold clauseKeys at 1. cbn [truthy objectKeys map fst app forEach].
    rewrite (addClause_foreignKey _ _ _ _ _ _ _ _ column other f Hcol Hserde) by eauto.
    cbn [propIn assoc bool_decide]. rewrite bool_decide_false by (intros [x Hx]; discriminate).
    cbn [bind fst snd orb]. rewrite entryOf_single. cbn [truthy].
    cbn [addClauses]. unfold clauseKeys. cbn [truthy objectKeys map fst app forEach].
    rewrite (Hstep _ _ Hnone). reflexivity.
  - intros meta w o via meta' w' o' e fuel Henter Hnested alias st before after st1
      Hkeys Hbefore.
    simpl. rewrite Hkeys, forEach_app, Hbefore. simpl.
    destruct (Henter (addClauses getMetadata fuel) alias st1) as (alias' & st' & ->).
    now rewrite Hnested.
  - intros entityLimit fuel type filter e Hloop. rewrite buildQuery_run.
    now rewrite Hloop.
Qed.

Lemma unknown_field_witness :
  buildQuery Sample.catalog Sample.defaultLimit 2 "Author"
    (Sample.filterOf (VObj [("publisher", VObj [("bogus", VNum 1)])])
       VUndefined None None)
  = Throw (NotFound "bogus")
  /\ forall fuel q,
       buildQuery Sample.catalog Sample.defaultLimit fuel "Author"
         (Sample.filterOf
            (VObj [("age", VNum 30);
                   ("mentor", VObj [("mentor", VObj [("surname", VStr "Poe")])])])
            VUndefined None None)
       <> Ok q.
Proof.
  destruct (unknown_field Sample.catalog) as (_ & _ & _ & Hany & Hnested & _).
  split.
  - exact (Hnested Sample.defaultLimit 0%nat "Author" "publisher"
             (Sample.foreignKey "publisher" "publisher_id" "Publisher") "Publisher"
             Sample.keep "bogus" (VNum 1) None None eq_refl eq_refl
             ltac:(discriminate) ltac:(discriminate) eq_refl).
  - intros fuel q. apply (Hany Sample.defaultLimit fuel "Author" _ "surname" q).
    apply (unknown_nested Sample.catalog _ _ _ "mentor" Sample.author
             (VObj [("mentor", VObj [("surname", VStr "Poe")])]) VUndefined);
      [simpl; tauto | |].
    { apply (entersScope_where Sample.catalog Sample.author _ VUndefined "mentor"
               (Sample.foreignKey "mentor" "mentor_id" "Author") "Author" Sample.keep);
        first [reflexivity | discriminate]. }
    apply (unknown_nested Sample.catalog _ _ _ "mentor" Sample.author
             (VObj [("surname", VStr "Poe")]) VUndefined);
      [simpl; tauto | |].
    { apply (entersScope_where Sample.catalog Sample.author _ VUndefined "mentor"
               (Sample.foreignKey "mentor" "mentor_id" "Author") "Author" Sample.keep);
        first [reflexivity | discriminate]. }
    apply unknown_here; [simpl; tauto | reflexivity].
Defined.

(** * Compiling twice *)

Lemma sameBut_refl a b h : sameBut a b h h.
Proof. repeat split. Qed.

Lemma sameBut_trans a b h1 h2 h3 :
  sameBut a b h1 h2 -> sameBut a b h2 h3 -> sameBut a b h1 h3.
Proof.
  intros (Hla & Hlb & Ha & Hb) (Hla' & Hlb' & Ha' & Hb').
  repeat split; try congruence.
  - intros i Hi. now rewrite Ha', Ha.
  - intros i Hi. now rewrite Hb', Hb.
Qed.

Lemma simulates_frame a b h h1 m m' :
  sameBut a b h h1 -> simulates a b h1 m m' -> simulates a b h m m'.
Proof.
  intros Hframe. destruct m as [st | e |]; simpl; auto.
  intros (h' & Hm & Hholds & Hframe'). exists h'.
  eauto using sameBut_trans.
Qed.

Lemma simulates_bind a b h m m'
    (k : CompileState -> outcome CompileState) (k' : Heap -> outcome Heap) :
  simulates a b h m m' ->
  (forall st1 h1, holds a b h1 st1 -> simulates a b h1 (k st1) (k' h1)) ->
  simulates a b h (bind m k) (bind m' k').
Proof.
  intros Hm Hk. destruct m as [st | e |]; simpl in *.
  - destruct Hm as (h1 & -> & Hholds & Hframe). simpl.
    eapply simulates_frame; [exact Hframe | now apply Hk].
  - now subst.
  - now subst.
Qed.

Lemma simulates_Ok a b h st : holds a b h st -> simulates a b h (Ok st) (Ok h).
Proof. intros Hh. exists h. split; [reflexivity |]. split; [exact Hh | apply sameBut_refl]. Qed.

(** A call on the builder of the compilation is a call on its [query]. *)
Lemma onBuilder_holds {A : Type} a b h st (call : Query -> outcome (A * Query)) :
  holds a b h st ->
  onBuilder b call h
  = bind (call (query st))
      (fun r => Ok (fst r, {| aliasObjects := aliasObjects h;
                              builders := <[b := snd r]> (builders h) |})).
Proof. intros [_ Hb]. unfold onBuilder. now rewrite Hb. Qed.

Lemma holds_setBuilder a b h st q' :
  holds a b h st ->
  holds a b {| aliasObjects := aliasObjects h; builders := <[b := q']> (builders h) |}
    (setQuery st q')
  /\ sameBut a b h
       {| aliasObjects := aliasObjects h; builders := <[b := q']> (builders h) |}.
Proof.
  intros [Ha Hb]. split; [split |]; simpl.
  - exact Ha.
  - apply list_lookup_insert_eq. eapply lookup_lt_Some; eauto.
  - repeat split; simpl.
    + apply length_insert.
    + intros i Hi. apply list_lookup_insert_ne. congruence.
Qed.

Lemma assignQuery_simulates a b h st (call : Query -> outcome Query) :
  holds a b h st ->
  simulates a b h (bind (call (query st)) (fun q => Ok (setQuery st q)))
    (assignQuery b call h).
Proof.
  intros Hh. unfold assignQuery. rewrite (onBuilder_holds a b h st) by exact Hh.
  destruct (call (query st)) as [q | e |]; simpl; try reflexivity.
  eexists. split; [reflexivity |]. now apply holds_setBuilder.
Qed.

(** The allocator on the [aliases] object of the compilation is the
    allocator on its counters. *)
Lemma getAliasIn_holds a b h st table :
  holds a b h st ->
  fst (getAliasIn a table h) = fst (getAlias table (aliases st))
  /\ holds a b (snd (getAliasIn a table h))
       {| aliases := snd (getAlias table (aliases st)); query := query st |}
  /\ sameBut a b h (snd (getAliasIn a table h)).
Proof.
  intros [Ha Hb]. unfold getAliasIn, getAlias. rewrite Ha. simpl.
  split; [reflexivity |]. split; [split |]; simpl.
  - apply list_lookup_insert_eq. eapply lookup_lt_Some; eauto.
  - exact Hb.
  - repeat split; simpl.
    + apply length_insert.
    + intros i Hi. apply list_lookup_insert_ne. congruence.
Qed.

Lemma forEach_simulates {K : Type} a b (keys : list K)
    (body : K -> CompileState -> outcome CompileState)
    (body' : K -> Heap -> outcome Heap) :
  (forall key st h, holds a b h st -> simulates a b h (body key st) (body' key h)) ->
  forall st h, holds a b h st ->
    simulates a b h (forEach keys body st) (forEach keys body' h).
Proof.
  intros Hbody. induction keys as [| key rest IH]; intros st h Hh; simpl.
  - now apply simulates_Ok.
  - apply simulates_bind; [now apply Hbody | exact IH].
Qed.

Section Refinement.

Variable getMetadata : string -> EntityMetadata.
Variable entityLimit : Z.

(** The step of the loop in the heap does what the step of the loop on the
    state does. *)
Lemma addClauseIn_simulates a b recurse recurse' meta alias w o key st h :
  (forall m al w' o' s h', holds a b h' s ->
     simulates a b h' (recurse m al w' o' s) (recurse' m al w' o' h')) ->
  holds a b h st ->
  simulates a b h
    (addClause getMetadata recurse meta alias w o key st)
    (addClauseIn getMetadata a b recurse' meta alias w o key h).
Proof.
  intros Hrec Hh. unfold addClause, addClauseIn.
  destruct (findColumn meta key) as [column |]; [| reflexivity].
  cbn [orFail bind].
  destruct (if truthy w then hasProp key w else Ok false) as [hasClause | e |];
    [| reflexivity | reflexivity].
  cbn [bind].
  destruct (serde column) as [f | other f].
  - (* a primitive column *)
    set (order := if truthy o then getProp o key else o).
    set (call := fun q : Query =>
                   if hasClause then addPrimitiveClause q alias column
                                       (if truthy w then getProp w key else w)
                   else Ok q).
    change (simulates a b h
              (bind (call (query st))
                 (fun q => if truthy order
                           then Ok (setQuery st (Knex.orderBy q (columnOf alias column) order))
                           else Ok (setQuery st q)))
              (bind (assignQuery b call h)
                 (fun h1 => if truthy order
                            then assignQuery b
                                   (fun q => Ok (Knex.orderBy q (columnOf alias column) order)) h1
                            else Ok h1))).
    pose proof (assignQuery_simulates a b h st call Hh) as Hcall.
    destruct (call (query st)) as [q | e |]; simpl in Hcall |- *.
    + destruct Hcall as (h1 & -> & Hh1 & Hframe). simpl.
      eapply simulates_frame; [exact Hframe |].
      destruct (truthy order); [| now apply simulates_Ok].
      exact (assignQuery_simulates a b h1 (setQuery st q)
               (fun q => Ok (Knex.orderBy q (columnOf alias column) order)) Hh1).
    + now rewrite Hcall.
    + now rewrite Hcall.
  - (* a foreign-key column *)
    rewrite (onBuilder_holds a b h st) by exact Hh.
    destruct (if hasClause
              then addForeignKeyClause (query st) alias column
                     (if truthy w then getProp w key else w)
              else Ok (false, query st)) as [[needsJoin q] | e |];
      [| reflexivity | reflexivity].
    cbn [bind fst snd].
    destruct (holds_setBuilder a b h st q Hh) as [Hh1 Hframe1].
    eapply simulates_frame; [exact Hframe1 |].
    destruct (needsJoin || truthy (if truthy o then getProp o key else o));
      [| now apply simulates_Ok].
    set (h1 := {| aliasObjects := aliasObjects h; builders := <[b := q]> (builders h) |})
      in *.
    destruct (getAliasIn_holds a b h1 (setQuery st q)
                (tableName (getMetadata other)) Hh1) as (Halias & Hh2 & Hframe2).
    destruct (getAliasIn a (tableName (getMetadata other)) h1) as [otherAlias h2].
    cbn [fst snd] in Halias, Hh2, Hframe2. cbn [setQuery aliases query] in *.
    destruct (getAlias (tableName (getMetadata other)) (aliases st))
      as [otherAlias' counters].
    cbn [fst snd] in Halias, Hh2. subst otherAlias'.
    eapply simulates_frame; [exact Hframe2 |].
    match goal with
    | |- simulates _ _ _ _ (bind (assignQuery b ?call h2) _) =>
        pose proof (assignQuery_simulates a b h2 _ call Hh2) as Hjoin
    end.
    cbn [bind query setQuery aliases] in Hjoin.
    destruct Hjoin as (h3 & -> & Hh3 & Hframe3). cbn [bind].
    eapply simulates_frame; [exact Hframe3 |].
    apply Hrec. exact Hh3.
Qed.

Lemma addClausesIn_simulates a b fuel : forall meta alias w o st h,
  holds a b h st ->
  simulates a b h
    (addClauses getMetadata fuel meta alias w o st)
    (addClausesIn getMetadata a b fuel meta alias w o h).
Proof.
  induction fuel as [| fuel IH]; intros meta alias w o st h Hh; [reflexivity |].
  cbn [addClauses addClausesIn].
  apply forEach_simulates; [| exact Hh].
  intros key s h' Hh'. apply addClauseIn_simulates; [| exact Hh'].
  intros m al w' o' s' h'' Hh''. now apply IH.
Qed.

(** A compilation in a heap creates one builder, at the next free address,
    leaves there the query that [buildQuery] computes, and changes no
    object the heap had. *)
Lemma buildQueryIn_refines fuel type filter h :
  match buildQuery getMetadata entityLimit fuel type filter with
  | Ok q =>
      exists h' counters,
        buildQueryIn getMetadata entityLimit fuel type filter h
        = Ok (length (builders h), h')
        /\ builders h' = builders h ++ [q]
        /\ aliasObjects h' = aliasObjects h ++ [counters]
  | Throw e => buildQueryIn getMetadata entityLimit fuel type filter h = Throw e
  | OutOfFuel => buildQueryIn getMetadata entityLimit fuel type filter h = OutOfFuel
  end.
Proof.
  rewrite buildQuery_run.
  unfold buildQueryIn, newAliases, getAliasIn, newBuilder, getAlias.
  cbn [aliasObjects builders].
  set (a := length (aliasObjects h)). set (b := length (builders h)).
  assert (Hget : (aliasObjects h ++ [∅]) !! a = Some (∅ : gmap string nat)).
  { unfold a. now rewrite list_lookup_middle. }
  rewrite Hget. cbn [from_option id]. rewrite lookup_empty. cbn [from_option id].
  set (h0 := {| aliasObjects := _; builders := _ |}).
  assert (Hh0 : holds a b h0 (baseState getMetadata type)).
  { split; simpl.
    - apply list_lookup_insert_eq. rewrite length_app. simpl. unfold a. lia.
    - unfold b. now rewrite list_lookup_middle. }
  pose proof (addClausesIn_simulates a b fuel (getMetadata type)
                (baseAlias getMetadata type) (where_of filter) (orderBy_of filter)
                _ _ Hh0) as Hloop.
  change (abbreviation (tableName (getMetadata type)) +:+ pretty 0%nat)
    with (baseAlias getMetadata type).
  destruct (addClauses _ _ _ _ _ _ _) as [st | e |]; simpl in Hloop |- *;
    [| now rewrite Hloop | now rewrite Hloop].
  destruct Hloop as (h1 & -> & Hh1 & Hframe1). cbn [bind].
  match goal with
  | |- context [bind (assignQuery b ?call h1) _] =>
      pose proof (assignQuery_simulates a b h1 _ call Hh1) as Hstep
  end.
  cbn [bind] in Hstep. destruct Hstep as (h2 & -> & Hh2 & Hframe2). cbn [bind].
  match goal with
  | |- context [bind (assignQuery b ?call h2) _] =>
      pose proof (assignQuery_simulates a b h2 _ call Hh2) as Hstep
  end.
  cbn [bind] in Hstep. destruct Hstep as (h3 & -> & Hh3 & Hframe3). cbn [bind].
  assert (Hend : exists h4,
            match truthyNumber (offset_of filter) with
            | Some n => assignQuery b (fun q => Ok (offset q n)) h3
            | None => Ok h3
            end = Ok h4
            /\ holds a b h4
                 (setQuery st
                    (paginate entityLimit filter (baseAlias getMetadata type) (query st)))
            /\ sameBut a b h3 h4).
  { unfold paginate. destruct (truthyNumber (offset_of filter)) as [n |].
    - pose proof (assignQuery_simulates a b h3 _ (fun q => Ok (offset q n)) Hh3) as Hstep.
      cbn [bind] in Hstep. destruct Hstep as (h4 & -> & Hh4 & Hframe4).
      exists h4. split; [reflexivity |]. split; [exact Hh4 | exact Hframe4].
    - exists h3. split; [reflexivity |]. split; [exact Hh3 | apply sameBut_refl]. }
  destruct Hend as (h4 & -> & Hh4 & Hframe4). cbn [bind].
  pose proof (sameBut_trans _ _ _ _ _ Hframe1
                (sameBut_trans _ _ _ _ _ Hframe2
                   (sameBut_trans _ _ _ _ _ Hframe3 Hframe4)))
    as (Hla & Hlb & Ha & Hb).
  destruct Hh4 as [Ha4 Hb4]. cbn [setQuery aliases query] in Ha4, Hb4.
  exists h4, (aliases st). split; [reflexivity |]. split.
  - apply list_eq. intros i. destruct (decide (i = b)) as [-> | Hi].
    + rewrite Hb4. unfold b. now rewrite list_lookup_middle.
    + rewrite (Hb i Hi). subst h0. cbn [builders].
      destruct (decide (i < b)%nat) as [Hlt | Hge].
      * now rewrite !lookup_app_l by (unfold b in Hlt; lia).
      * rewrite !lookup_ge_None_2; [reflexivity | |];
          rewrite length_app; simpl; unfold b in *; lia.
  - apply list_eq. intros i. destruct (decide (i = a)) as [-> | Hi].
    + rewrite Ha4. unfold a. now rewrite list_lookup_middle.
    + rewrite (Ha i Hi). subst h0. cbn [aliasObjects].
      rewrite list_lookup_insert_ne by congruence.
      destruct (decide (i < a)%nat) as [Hlt | Hge].
      * now rewrite !lookup_app_l by (unfold a in Hlt; lia).
      * rewrite !lookup_ge_None_2; [reflexivity | |];
          rewrite length_app; simpl; unfold a in *; lia.
Qed.

End Refinement.

(** Two runs of the compiler on the state that both complete end the same
    way, whatever their recursion budgets. *)
Lemma buildQuery_budget getMetadata entityLimit fuel1 fuel2 type filter :
  completes (buildQuery getMetadata entityLimit fuel1 type filter) ->
  completes (buildQuery getMetadata entityLimit fuel2 type filter) ->
  buildQuery getMetadata entityLimit fuel1 type filter
  = buildQuery getMetadata entityLimit fuel2 type filter.
Proof.
  intros H1 H2. destruct (Nat.le_ge_cases fuel1 fuel2) as [Hle | Hle].
  - destruct (buildQuery_mono getMetadata entityLimit _ _ type filter Hle) as [H | H];
      [contradiction | exact H].
  - destruct (buildQuery_mono getMetadata entityLimit _ _ type filter Hle) as [H | H];
      [contradiction | now symmetry].
Qed.

(** C9. Two compilations of the same entity type and filter against the
    same catalog, in any two heaps -- whatever objects earlier compilations
    left there -- and with any recursion budgets that let both complete, end
    the same way: if one raises an error the other raises the same error,
    and if one returns a builder the other returns a builder that holds the
    same query, structurally.  A compilation keeps its state in objects it
    creates: the builder it returns is a new object, and every object the
    heap had before is as it was.  So of two compilations in a row the
    second returns a builder other than the first's, and both builders hold
    the same query when the second has returned. *)
Theorem deterministic getMetadata entityLimit type filter fuel1 fuel2 h1 h2 :
  completes (buildQueryIn getMetadata entityLimit fuel1 type filter h1) ->
  completes (buildQueryIn getMetadata entityLimit fuel2 type filter h2) ->
  (forall e,
     buildQueryIn getMetadata entityLimit fuel1 type filter h1 = Throw e ->
     buildQueryIn getMetadata entityLimit fuel2 type filter h2 = Throw e)
  /\ (forall b1 h1',
        buildQueryIn getMetadata entityLimit fuel1 type filter h1 = Ok (b1, h1') ->
        exists b2 h2' q,
          buildQueryIn getMetadata entityLimit fuel2 type filter h2 = Ok (b2, h2')
          /\ builders h1' !! b1 = Some q
          /\ builders h2' !! b2 = Some q)
  /\ (forall b1 h1',
        buildQueryIn getMetadata entityLimit fuel1 type filter h1 = Ok (b1, h1') ->
        b1 = length (builders h1)
        /\ (exists q, builders h1' = builders h1 ++ [q])
        /\ (exists counters, aliasObjects h1' = aliasObjects h1 ++ [counters]))
  /\ (forall b1 h1',
        buildQueryIn getMetadata entityLimit fuel1 type filter h1 = Ok (b1, h1') ->
        h2 = h1' ->
        exists b2 h2' q,
          buildQueryIn getMetadata entityLimit fuel2 type filter h2 = Ok (b2, h2')
          /\ b2 <> b1
          /\ builders h2' !! b1 = Some q
          /\ builders h2' !! b2 = Some q).
Proof.
  intros Hc1 Hc2.
  pose proof (buildQueryIn_refines getMetadata entityLimit fuel1 type filter h1) as Hr1.
  pose proof (buildQueryIn_refines getMetadata entityLimit fuel2 type filter h2) as Hr2.
  assert (Hsame : buildQuery getMetadata entityLimit fuel1 type filter
                  = buildQuery getMetadata entityLimit fuel2 type filter).
  { apply buildQuery_budget; unfold completes in *; intros Hfuel.
    - rewrite Hfuel in Hr1. contradiction.
    - rewrite Hfuel in Hr2. contradiction. }
  rewrite <- Hsame in Hr2. clear Hsame.
  destruct (buildQuery getMetadata entityLimit fuel1 type filter) as [q | e |].
  - destruct Hr1 as (h1' & c1 & Hrun1 & Hb1 & Ha1).
    destruct Hr2 as (h2' & c2 & Hrun2 & Hb2 & Ha2).
    rewrite Hrun1, Hrun2.
    split; [discriminate |]. split; [| split].
    + intros b1 h [= <- <-]. exists (length (builders h2)), h2', q.
      split; [reflexivity |]. rewrite Hb1, Hb2. now rewrite !list_lookup_middle.
    + intros b1 h [= <- <-]. split; [reflexivity |]. split; eauto.
    + intros b1 h [= <- <-] ->. exists (length (builders h1')), h2', q.
      split; [reflexivity |]. rewrite Hb2, Hb1.
      split; [rewrite length_app; simpl; lia |].
      split; [| now rewrite list_lookup_middle].
      rewrite <- app_assoc. simpl. now rewrite list_lookup_middle.
  - rewrite Hr1, Hr2. split; [intros e' [= <-]; reflexivity |].
    repeat split; discriminate.
  - now apply Hc1 in Hr1.
Qed.

Lemma deterministic_witness :
  exists b1 h1' b2 h2' q,
    buildQueryIn Sample.catalog Sample.defaultLimit 2 "Author" Sample.olderAcmeAuthors
      emptyHeap = Ok (b1, h1')
    /\ buildQueryIn Sample.catalog Sample.defaultLimit 7 "Author" Sample.olderAcmeAuthors
         usedHeap = Ok (b2, h2')
    /\ builders h1' !! b1 = Some q
    /\ builders h2' !! b2 = Some q.
Proof.
  pose proof (deterministic Sample.catalog Sample.defaultLimit "Author"
                Sample.olderAcmeAuthors 2 7 emptyHeap usedHeap
                ltac:(vm_compute; discriminate) ltac:(vm_compute; discriminate))
    as (_ & Hsame & _).
  destruct (buildQueryIn Sample.catalog Sample.defaultLimit 2 "Author"
              Sample.olderAcmeAuthors emptyHeap) as [[b1 h1'] | e |] eqn:Hrun.
  - destruct (Hsame b1 h1' eq_refl) as (b2 & h2' & q & Hrun2 & Hq1 & Hq2).
    exists b1, h1', b2, h2', q. auto.
  - exfalso. vm_compute in Hrun. discriminate Hrun.
  - exfalso. vm_compute in Hrun. discriminate Hrun.
Defined.
